(** * Customers on a map: the record-to-marker pipeline of [src/components/Map.tsx]

    The component reads the rows of a spreadsheet, turns every row that has a
    residence into a [Person], asks a geocoding service for the coordinates of
    every residence, sorts the answers by year of sale, assigns a colour to
    every year and filters the list by the selected year.

    Conventions of the embedding.
    - Strings are sequences of UTF-8 bytes ([string]).  The only character
      class the code tests, [[0-9]], is ASCII, so working on bytes and working
      on UTF-16 code units agree.
    - A year is a JavaScript Number produced by [getFullYear]: an integer or
      [NaN] ([number]).
    - Coordinates and random draws are IEEE-754 binary64 numbers ([float]),
      as every JavaScript Number is; [+], [-] and [*] on them round to the
      nearest double.  The number a double denotes is its [value], a
      rational.
    - A spreadsheet row is a finite map from column labels to cell texts.
    - The host functions [Date.parse], [Date.prototype.getFullYear],
      [Math.random] and [Number] are parameters of the development. *)

From stdpp Require Import gmap strings list fin_maps pretty sorting.
From Stdlib Require Import Ascii QArith Qabs Qpower Qfield Floats.
Close Scope Q_scope.
Open Scope string_scope.
Open Scope list_scope.
Open Scope nat_scope.

(** A proof depends on the section variables of its statement only. *)
Set Default Proof Using "Type".

(** A decimal literal denotes the nearest double, in JavaScript and here. *)
Set Warnings "-inexact-float".

(** ** JavaScript values used by the component *)

(** The Number stored in [Person.year]. *)
Inductive number := NaN | Num (z : Z).

Global Instance number_eq_dec : EqDecision number.
Proof. solve_decision. Defined.

(** [a - b] on Numbers: [NaN] is absorbing. *)
Definition number_sub (a b : number) : number :=
  match a, b with
  | Num x, Num y => Num (x - y)
  | _, _ => NaN
  end.

(** [a === b] on Numbers: [NaN] is different from every Number, itself
    included. *)
Definition strict_eq (a b : number) : bool :=
  match a, b with
  | Num x, Num y => bool_decide (x = y)
  | _, _ => false
  end.

(** [String(n)], the property key a Number turns into. *)
Definition Number_toString (n : number) : string :=
  match n with
  | NaN => "NaN"
  | Num z => pretty z
  end.

(** [!!v] for a cell that is a string or [undefined]: only the empty string
    and [undefined] are falsy. *)
Definition truthy (v : option string) : bool :=
  match v with
  | Some (String _ _) => true
  | _ => false
  end.

(** [String(v)] for a cell that is a string or [undefined]. *)
Definition String_of (v : option string) : string := default "undefined" v.

Definition is_digit (c : ascii) : bool :=
  (48 <=? nat_of_ascii c)%nat && (nat_of_ascii c <=? 57)%nat.

(** [s.replace(/[0-9]/g, "")] *)
Fixpoint strip_digits (s : string) : string :=
  match s with
  | EmptyString => EmptyString
  | String c s' =>
      if is_digit c then strip_digits s' else String c (strip_digits s')
  end.

(** Every character of [s] is a decimal digit. *)
Fixpoint all_digits (s : string) : bool :=
  match s with
  | EmptyString => true
  | String c s' => is_digit c && all_digits s'
  end.

(** ** Data model *)

Abbreviation Row := (gmap string string).

(** [interface Person].  [device] is copied from a cell and is [undefined]
    ([None]) when the row has no such column. *)
Record Person := {
  city : string;
  year : number;
  name : string;
  device : option string
}.

(** ** Doubles *)

(** The number a double denotes.  [Prim2SF] gives the sign, the mantissa and
    the exponent of a finite double; infinities and NaN are given the
    value 0. *)
Definition SF2Q (x : spec_float) : Q :=
  match x with
  | S754_finite s m e => (inject_Z (cond_Zopp s (Z.pos m)) * 2 ^ e)%Q
  | _ => 0%Q
  end.

Definition value (x : float) : Q := SF2Q (Prim2SF x).

(** The same number in units of [2 ^ (- K)], an integer when [K] is at least
    1074, the exponent of the smallest double. *)
Definition sign_Z (s : bool) : Z := if s then (-1)%Z else 1%Z.

Definition scaled (K : Z) (x : spec_float) : Z :=
  match x with
  | S754_finite s m e => (sign_Z s * Z.pos m * 2 ^ (e + K))%Z
  | _ => 0%Z
  end.

Definition units (x : float) : Z := scaled 1074 (Prim2SF x).

Definition is_finite (x : spec_float) : bool :=
  match x with
  | S754_zero _ | S754_finite _ _ _ => true
  | _ => false
  end.

(** [Number.isFinite]: neither an infinity nor NaN. *)
Definition Number_isFinite (x : float) : bool := is_finite (Prim2SF x).

Record LatLng := { lat : float; lng : float }.

(** [interface PersonWithLocation extends Person]: the fields of the person
    and an optional [location]. *)
Record PersonWithLocation := {
  person : Person;
  location : option LatLng
}.

(** [tailwindColorNames] *)
Definition tailwindColorNames : list string := [
  "border-gray-500"; "border-red-500"; "border-yellow-500"; "border-blue-500";
  "border-indigo-500"; "border-purple-500"; "border-pink-500";
  "border-amber-500"; "border-lime-500"; "border-emerald-500";
  "border-teal-500"; "border-cyan-500"; "border-sky-500"; "border-violet-500";
  "border-fuchsia-500"; "border-rose-500"; "border-slate-500";
  "border-zinc-500"; "border-neutral-500"; "border-stone-500"
].

(** ** A sample host

    A concrete [Date.parse] / [getFullYear] pair for a host whose local time
    is UTC and which reads the date-only form [yyyy-mm-dd] (the format the
    sheet is read with).  It is used to run the pipeline on concrete rows. *)
Module SampleHost.

Definition digit_value (c : ascii) : option Z :=
  if is_digit c then Some (Z.of_nat (nat_of_ascii c) - 48)%Z else None.

Fixpoint decimal (acc : Z) (s : string) : option Z :=
  match s with
  | EmptyString => Some acc
  | String c s' => d ← digit_value c; decimal (10 * acc + d)%Z s'
  end.

(** Days from 1970-01-01 to the civil date [y-m-d]. *)
Definition days_from_civil (y m d : Z) : Z :=
  (let y' := if m <=? 2 then y - 1 else y in
   let era := y' / 400 in
   let yoe := y' - era * 400 in
   let doy := (153 * (if 2 <? m then m - 3 else m + 9) + 2) / 5 + d - 1 in
   let doe := yoe * 365 + yoe / 4 - yoe / 100 + doy in
   era * 146097 + doe - 719468)%Z.

Definition ms_per_day : Z := 86400000.

Definition Date_parse (s : string) : option Z :=
  if bool_decide (String.length s = 10%nat ∧ String.get 4 s = Some "-"%char
                  ∧ String.get 7 s = Some "-"%char)
  then
    y ← decimal 0 (String.substring 0 4 s);
    m ← decimal 0 (String.substring 5 2 s);
    d ← decimal 0 (String.substring 8 2 s);
    if bool_decide (1 ≤ m ≤ 12 ∧ 1 ≤ d ≤ 31)%Z
    then Some (days_from_civil y m d * ms_per_day)%Z
    else None
  else None.

Definition getFullYear (t : Z) : Z :=
  (let z := t / ms_per_day + 719468 in
   let era := z / 146097 in
   let doe := z - era * 146097 in
   let yoe := (doe - doe / 1460 + doe / 36524 - doe / 146096) / 365 in
   let doy := doe - (365 * yoe + yoe / 4 - yoe / 100) in
   let mp := (5 * doy + 2) / 153 in
   if mp <? 10 then yoe + era * 400 else yoe + era * 400 + 1)%Z.

(** [Math.random]: the draws 0, 1/8, ..., 7/8, 0, ... *)
Definition Math_random (k : nat) : float :=
  default 0%float
    ([0; 0.125; 0.25; 0.375; 0.5; 0.625; 0.75; 0.875]%float !! (k mod 8)).

(** [Number] on the strings [String] makes of a year ("NaN", or a decimal
    integer with an optional minus sign) and on the empty string; other
    strings are not used here and are mapped to [NaN]. *)
Definition Number (s : string) : number :=
  match s with
  | String "-" (String c s') =>
      match decimal 0 (String c s') with
      | Some z => Num (- z)
      | None => NaN
      end
  | _ =>
      match decimal 0 s with
      | Some z => Num z
      | None => NaN
      end
  end.

End SampleHost.

Section Map.

(** [Date.parse]: the time value in milliseconds, [None] for [NaN]. *)
Variable Date_parse : string → option Z.
(** [getFullYear] of a valid time value, in the host's local time. *)
Variable getFullYear : Z → Z.

(** ** Record extraction (the [foundPeople] expression of [processFile]) *)

(** [new Date(Date.parse(v)).getFullYear()] *)
Definition sale_year (v : option string) : number :=
  match Date_parse (String_of v) with
  | Some t => Num (getFullYear t)
  | None => NaN
  end.

Definition has_city (row : Row) : bool := truthy (row !! "Bydliště").

(** The callback of [.map].  [None] is the [TypeError] of calling
    [replace] on [undefined]. *)
Definition toPerson (row : Row) : option Person :=
  bydliste ← row !! "Bydliště";
  Some {| city := strip_digits bydliste;
          year := sale_year (row !! "Datum prodeje");
          name := default "" (row !! "Jméno") +:+ " "
                  +:+ default "" (row !! "Přijmení");
          device := row !! "Typ" |}.

Definition foundPeople (rows : list Row) : option (list Person) :=
  mapM toPerson (filter (λ row, has_city row) rows).

(** ** Jitter *)

(** [Math.random()]: the [k]-th call of an execution returns
    [Math_random k]. *)
Variable Math_random : nat → float.

(** [addRandomOffset], threading the number [k] of calls of [Math.random]
    made so far. *)
Definition addRandomOffset (location : LatLng) (k : nat) : LatLng * nat :=
  let offsetLat := ((Math_random k - 0.5) * 0.005)%float in
  let offsetLng := ((Math_random (S k) - 0.5) * 0.005)%float in
  ({| lat := (lat location + offsetLat)%float;
      lng := (lng location + offsetLng)%float |}, S (S k)).

(** ** Component state *)

Record State := {
  people : list PersonWithLocation;
  isLoading : bool;
  totalPeople : nat;
  processedPeople : nat;
  filteredYear : string
}.

Definition setPeople (v : list PersonWithLocation) (st : State) : State :=
  {| people := v; isLoading := isLoading st; totalPeople := totalPeople st;
     processedPeople := processedPeople st;
     filteredYear := filteredYear st |}.

Definition setIsLoading (v : bool) (st : State) : State :=
  {| people := people st; isLoading := v; totalPeople := totalPeople st;
     processedPeople := processedPeople st;
     filteredYear := filteredYear st |}.

Definition setTotalPeople (v : nat) (st : State) : State :=
  {| people := people st; isLoading := isLoading st; totalPeople := v;
     processedPeople := processedPeople st;
     filteredYear := filteredYear st |}.

(** [setProcessedPeople(f)], the functional form of the setter. *)
Definition setProcessedPeople (f : nat → nat) (st : State) : State :=
  {| people := people st; isLoading := isLoading st;
     totalPeople := totalPeople st;
     processedPeople := f (processedPeople st);
     filteredYear := filteredYear st |}.

(** ** The geocoder client ([fetchCityLocation]) *)

(** A feature of the service's answer; [coordinates] is the pair
    [[longitude, latitude]] of [geometry.coordinates]. *)
Record Feature := { coordinates : float * float }.

(** What a lookup comes back with: [fetch] or [response.json()] rejects
    ([LookupFailure]), or the body parses into [data], whose [features]
    may be missing.  A body is an answer of the service: an object whose
    [features], when present, is an array of features, each with a
    [geometry] and its [coordinates]. *)
Inductive Response :=
| LookupFailure
| Data (features : option (list Feature)).

(** The part of [fetchCityLocation] that runs once the response is there.
    The first component is [None] when the promise rejects. *)
Definition fetchCityLocation (response : Response) (p : Person)
    (st : State) (k : nat) : option PersonWithLocation * State * nat :=
  match response with
  | LookupFailure => (None, st, k)
  | Data features =>
      let st := setProcessedPeople (λ state, state + 1) st in
      match features ≫= head with
      | Some f =>
          let '(loc, k') :=
            addRandomOffset {| lat := (coordinates f).2;
                               lng := (coordinates f).1 |} k in
          (Some {| person := p; location := Some loc |}, st, k')
      | None => (Some {| person := p; location := None |}, st, k)
      end
  end.

(** ** [Array.prototype.sort]

    The sort is stable, and a comparator result of [NaN] counts as [+0].
    For a consistent comparator every conforming sort returns what this
    insertion sort returns.  A comparator that returns [NaN] for some pairs
    is not consistent: the order of the result is then left to the engine,
    and another stable algorithm may return another order; that the result
    is a rearrangement of the input holds for every algorithm. *)
Section Array_sort.
Context {A : Type} (comparefn : A → A → number).

(** [comparefn(a, b) > 0]: [a] goes after [b]. *)
Definition goes_after (a b : A) : bool :=
  match comparefn a b with
  | Num v => bool_decide (0 < v)%Z
  | NaN => false
  end.

Fixpoint sort_insert (x : A) (l : list A) : list A :=
  match l with
  | [] => [x]
  | y :: l' => if goes_after x y then y :: sort_insert x l' else x :: l
  end.

Definition Array_sort (l : list A) : list A := foldr sort_insert [] l.
End Array_sort.

(** ** The orchestrator (the [try] block of [processFile]) *)

Inductive promise (A : Type) :=
| Pending
| Fulfilled (v : A)
| Rejected.
Global Arguments Pending {A}.
Global Arguments Fulfilled {A} v.
Global Arguments Rejected {A}.

Definition fulfilled_value {A} (p : promise A) : option A :=
  match p with Fulfilled v => Some v | _ => None end.

Definition is_rejected {A} (p : promise A) : bool :=
  match p with Rejected => true | _ => false end.

(** [Promise.all]: rejected as soon as one input is, fulfilled with the
    values in input order once all inputs are. *)
Definition Promise_all {A} (ps : list (promise A)) : promise (list A) :=
  if existsb is_rejected ps then Rejected
  else match mapM fulfilled_value ps with
       | Some vs => Fulfilled vs
       | None => Pending
       end.

(** An execution of the [try] block: the component state, the number of
    calls of [Math.random], the promises of the lookups in input order,
    and the state of [await Promise.all]. *)
Record Run := {
  ui : State;
  random_calls : nat;
  lookups : list (promise PersonWithLocation);
  awaited : promise (list PersonWithLocation)
}.

(** The callback of [foundPeople.map], from the arrival of the response
    on. *)
Definition lookup_callback (response : Response) (p : Person)
    (st : State) (k : nat) : option PersonWithLocation * State * nat :=
  let '(r, st, k) := fetchCityLocation response p st k in
  match r with
  | Some personWithLocation =>
      (Some personWithLocation,
       setProcessedPeople (λ prev, prev + 1) st, k)
  | None => (None, st, k)
  end.

(** [element !== null]: a [PersonWithLocation] object is never [null]. *)
Definition not_null (element : PersonWithLocation) : bool := true.

(** [(a, b) => a.year - b.year] *)
Definition by_year (a b : PersonWithLocation) : number :=
  number_sub (year (person a)) (year (person b)).

(** The rest of [processFile] once [Promise.all] is settled. *)
Definition resume (run : Run) : Run :=
  match awaited run with
  | Pending =>
      match Promise_all (lookups run) with
      | Pending => run
      | Fulfilled assignedPeople =>
          let filteredAndSortedPeople :=
            Array_sort by_year (List.filter not_null assignedPeople) in
          {| ui := setIsLoading false
                     (setPeople filteredAndSortedPeople (ui run));
             random_calls := random_calls run;
             lookups := lookups run;
             awaited := Fulfilled assignedPeople |}
      | Rejected =>
          {| ui := setIsLoading false (ui run);
             random_calls := random_calls run;
             lookups := lookups run;
             awaited := Rejected |}
      end
  | _ => run
  end.

(** [processFile] from [setTotalPeople] to the fan-out: every lookup is
    started and pending. *)
Definition fan_out (found : list Person) (st : State) (k : nat) : Run :=
  let st := setIsLoading true st in
  let st := setTotalPeople (length found) st in
  let st := setProcessedPeople (λ _, 0) st in
  resume {| ui := st; random_calls := k;
            lookups := replicate (length found) Pending;
            awaited := Pending |}.

(** The response of lookup [i] arrives: its callback runs to the end, its
    promise settles, and [processFile] resumes if [Promise.all] settles.
    This is one step: the states between the two updates of the counter
    are not states of a [Run].  Nothing happens when there is no pending
    lookup [i]. *)
Definition settle (found : list Person) (responses : nat → Response)
    (i : nat) (run : Run) : Run :=
  match found !! i, lookups run !! i with
  | Some p, Some Pending =>
      let '(r, st, k) :=
        lookup_callback (responses i) p (ui run) (random_calls run) in
      let settled :=
        match r with Some v => Fulfilled v | None => Rejected end in
      resume {| ui := st; random_calls := k;
                lookups := <[i := settled]> (lookups run);
                awaited := awaited run |}
  | _, _ => run
  end.

(** The [try] block of [processFile] on the records [found], when lookup
    [i] is answered with [responses i] and the answers arrive in the order
    [arrivals]. *)
Definition resolveAll (found : list Person) (responses : nat → Response)
    (arrivals : list nat) (st : State) (k : nat) : Run :=
  foldl (λ run i, settle found responses i run) (fan_out found st k)
        arrivals.

(** [processFile] from the rows of the sheet on. *)
Definition processFile (rows : list Row) (responses : nat → Response)
    (arrivals : list nat) (st : State) (k : nat) : option Run :=
  found ← foundPeople rows;
  Some (resolveAll found responses arrivals st k).

(** ** Colours ([colorMap]) *)

(** One turn of [people.forEach]; the accumulator is [colorMap] and
    [colorIndex].  The keys are year strings, none of which is a property
    of [Object.prototype]. *)
Definition colorMap_step (acc : gmap string string * nat)
    (item : PersonWithLocation) : gmap string string * nat :=
  let '(colorMap, colorIndex) := acc in
  let key := Number_toString (year (person item)) in
  if truthy (colorMap !! key) then acc
  else (<[key := tailwindColorNames
                   !!! (colorIndex mod length tailwindColorNames)]> colorMap,
        S colorIndex).

Definition colorMap (people : list PersonWithLocation)
    : gmap string string :=
  (foldl colorMap_step (∅, 0) people).1.

(** [colorMap[person.year]], the colour class of a list entry or marker. *)
Definition color_of (people : list PersonWithLocation)
    (p : PersonWithLocation) : option string :=
  colorMap people !! Number_toString (year (person p)).

(** ** Year filter ([filteredPeople]) *)

(** [Number(s)], read as the values a year can be equal to: [Num z] when
    the Number is the integer [z], [NaN] otherwise (no year is [===] to a
    Number that is not an integer). *)
Variable Number : string → number.

Definition filteredPeople (people : list PersonWithLocation)
    (filteredYear : string) : list PersonWithLocation :=
  if bool_decide (filteredYear = "") then people
  else List.filter
         (λ p, strict_eq (year (person p)) (Number filteredYear)) people.

(** * Properties *)

(** Forget the host functions a statement does not mention, so that no
    solver puts them into a proof. *)
Ltac forget_host :=
  try clear Date_parse; try clear getFullYear; try clear Math_random;
  try clear Number.

(** ** [Array.prototype.sort] *)

Section Array_sort_facts.
Context {A : Type} (comparefn : A → A → number).

Lemma sort_insert_Permutation (x : A) (l : list A) :
  sort_insert comparefn x l ≡ₚ x :: l.
Proof.
  induction l as [|y l IH]; simpl; [done|].
  destruct (goes_after comparefn x y); [|done].
  rewrite IH. apply Permutation_swap.
Qed.

Lemma Array_sort_Permutation (l : list A) : Array_sort comparefn l ≡ₚ l.
Proof.
  induction l as [|x l IH]; simpl; [done|].
  by rewrite sort_insert_Permutation, IH.
Qed.

Lemma Array_sort_length (l : list A) :
  length (Array_sort comparefn l) = length l.
Proof. by rewrite Array_sort_Permutation. Qed.

(** Stability, for a class [P] of elements that the comparator never
    orders among themselves: the members of the class keep their
    order. *)
Section stable.
Context (P : A → bool).
Hypothesis P_unordered :
  ∀ x z, goes_after comparefn x z = true → P x = true → P z = false.

Lemma sort_insert_filter (x : A) (l : list A) :
  List.filter P (sort_insert comparefn x l) = List.filter P (x :: l).
Proof using P_unordered.
  induction l as [|y l IH]; [done|].
  cbn [sort_insert].
  destruct (goes_after comparefn x y) eqn:E; [|done].
  cbn [List.filter] in *. rewrite IH.
  destruct (P x) eqn:Ex; [|done].
  by rewrite (P_unordered x y E Ex).
Qed.

Lemma Array_sort_filter (l : list A) :
  List.filter P (Array_sort comparefn l) = List.filter P l.
Proof using P_unordered.
  induction l as [|x l IH]; [done|].
  cbn [Array_sort foldr]. rewrite sort_insert_filter.
  cbn [List.filter]. fold (Array_sort comparefn l). by rewrite IH.
Qed.
End stable.
End Array_sort_facts.

(** [a <= b] on Numbers; [NaN] is below and above nothing. *)
Definition number_le (a b : number) : Prop :=
  match a, b with
  | Num x, Num y => (x ≤ y)%Z
  | _, _ => False
  end.

(** Sorting by a numeric key, [(a, b) => key(a) - key(b)]. *)
Section Array_sort_by_key.
Context {A : Type} (key : A → number).

Definition by_key (a b : A) : number := number_sub (key a) (key b).
Definition key_le (a b : A) : Prop := number_le (key a) (key b).

Lemma sort_insert_sorted (x : A) (l : list A) :
  key x ≠ NaN → Forall (λ a, key a ≠ NaN) l →
  StronglySorted key_le l →
  StronglySorted key_le (sort_insert by_key x l).
Proof.
  intros Hx Hl Hs. induction Hs as [|y l Hs IH Hy]; simpl.
  - repeat constructor.
  - apply Forall_cons in Hl as [Hny Hl].
    unfold goes_after, by_key.
    destruct (key x) as [|kx] eqn:Ex; [done|].
    destruct (key y) as [|ky] eqn:Ey; [done|]. simpl.
    case_bool_decide as Hlt.
    + constructor; [by apply IH|].
      rewrite sort_insert_Permutation. constructor; [|done].
      unfold key_le. rewrite Ex, Ey. simpl. lia.
    + constructor; [by constructor|].
      assert (key_le x y) as Hxy.
      { unfold key_le. rewrite Ex, Ey. simpl. lia. }
      constructor; [done|].
      eapply Forall_impl; [exact Hy|]. intros z Hz.
      unfold key_le in *. rewrite Ex in *. rewrite Ey in *.
      destruct (key z); simpl in *; [done|lia].
Qed.

Lemma Array_sort_sorted (l : list A) :
  Forall (λ a, key a ≠ NaN) l →
  StronglySorted key_le (Array_sort by_key l).
Proof.
  induction 1 as [|x l Hx Hl IH]; simpl; [constructor|].
  apply sort_insert_sorted; [done| |done].
  by rewrite Array_sort_Permutation.
Qed.

(** The comparator never puts an element after one with the same
    key. *)
Lemma by_key_unordered (n : number) (x z : A) :
  goes_after by_key x z = true →
  bool_decide (key x = n) = true → bool_decide (key z = n) = false.
Proof.
  unfold goes_after, by_key.
  intros H Hx%bool_decide_eq_true. apply bool_decide_eq_false.
  intros Hz. rewrite Hx, Hz in H. destruct n as [|v]; simpl in H; [done|].
  apply bool_decide_eq_true in H. lia.
Qed.

Lemma Array_sort_by_key_stable (n : number) (l : list A) :
  List.filter (λ a, bool_decide (key a = n)) (Array_sort by_key l)
  = List.filter (λ a, bool_decide (key a = n)) l.
Proof. apply Array_sort_filter, by_key_unordered. Qed.

(** Sorting commutes with a projection that keeps the key. *)
Lemma Array_sort_map {B : Type} (f : B → A) (l : list B) :
  f <$> Array_sort (λ a b, by_key (f a) (f b)) l
  = Array_sort by_key (f <$> l).
Proof.
  induction l as [|x l IH]; [done|].
  cbn [Array_sort foldr fmap list_fmap].
  fold (Array_sort (λ a b, by_key (f a) (f b)) l).
  fold (Array_sort by_key (f <$> l)). rewrite <-IH.
  generalize (Array_sort (λ a b, by_key (f a) (f b)) l).
  intros s. induction s as [|y s IHs]; [done|].
  simpl. unfold goes_after.
  destruct (by_key (f x) (f y)) as [|v]; [done|].
  case_bool_decide; [|done]. simpl. f_equal. exact IHs.
Qed.
End Array_sort_by_key.

(** ** Record extraction *)

Lemma truthy_Some (v : option string) :
  truthy v = true ↔ ∃ c, v = Some c ∧ c ≠ "".
Proof.
  destruct v as [[|a c]|]; simpl.
  - split; [done|]. by intros (? & [= <-] & ?).
  - split; [|done]. intros _. by exists (String a c).
  - split; [done|]. by intros (? & ? & ?).
Qed.

Lemma strip_digits_empty (s : string) :
  strip_digits s = "" ↔ all_digits s = true.
Proof.
  induction s as [|a s IH]; simpl; [done|].
  destruct (is_digit a); simpl; [done|]. split; discriminate.
Qed.

Lemma foundPeople_nil : foundPeople [] = Some [].
Proof. reflexivity. Qed.

(** The rows are visited one by one: a row without a residence is skipped,
    a row with one becomes a person. *)
Lemma foundPeople_cons (row : Row) (rows : list Row) :
  foundPeople (row :: rows) =
    if has_city row
    then p ← toPerson row; found ← foundPeople rows; Some (p :: found)
    else foundPeople rows.
Proof.
  unfold foundPeople. rewrite filter_cons.
  by destruct (has_city row) eqn:E.
Qed.

Lemma toPerson_has_city (row : Row) :
  has_city row = true →
  ∃ c, row !! "Bydliště" = Some c ∧ c ≠ "" ∧
    toPerson row =
      Some {| city := strip_digits c;
              year := sale_year (row !! "Datum prodeje");
              name := default "" (row !! "Jméno") +:+ " "
                      +:+ default "" (row !! "Přijmení");
              device := row !! "Typ" |}.
Proof.
  unfold has_city. rewrite truthy_Some. intros (c & Hc & Hne).
  exists c. unfold toPerson. rewrite Hc. done.
Qed.

Lemma foundPeople_app (rows1 rows2 : list Row) :
  foundPeople (rows1 ++ rows2) =
    found1 ← foundPeople rows1; found2 ← foundPeople rows2;
    Some (found1 ++ found2).
Proof.
  induction rows1 as [|row rows1 IH]; simpl.
  - change (foundPeople []) with (Some (@nil Person)). simpl.
    by destruct (foundPeople rows2).
  - rewrite !foundPeople_cons, IH.
    destruct (has_city row); [|done].
    destruct (toPerson row); simpl; [|done].
    destruct (foundPeople rows1); simpl; [|done].
    by destruct (foundPeople rows2).
Qed.

(** The extraction never throws. *)
Lemma foundPeople_total (rows : list Row) : is_Some (foundPeople rows).
Proof.
  induction rows as [|row rows [found IH]]; [by eexists|].
  rewrite foundPeople_cons, IH.
  destruct (has_city row) eqn:E; [|by eexists].
  destruct (toPerson_has_city row E) as (c & _ & _ & ->). by eexists.
Qed.

(** C1 (as amended): the extraction returns at most one record per row,
    and every record comes from a row whose residence cell is present and
    not empty; the record's city is that cell without its digits, which is
    empty exactly when the cell holds digits only. *)
Theorem foundPeople_length_city (rows : list Row) :
  ∃ found, foundPeople rows = Some found ∧
    length found ≤ length rows ∧
    ∀ p, p ∈ found →
      ∃ row c, row ∈ rows ∧ row !! "Bydliště" = Some c ∧ c ≠ "" ∧
        city p = strip_digits c ∧
        (city p = "" ↔ all_digits c = true).
Proof.
  induction rows as [|row rows (found & Hfound & Hlen & Hcity)].
  - exists []. split; [done|]. split; [done|]. intros p Hp.
    by apply elem_of_nil in Hp.
  - rewrite foundPeople_cons, Hfound.
    destruct (has_city row) eqn:E.
    + destruct (toPerson_has_city row E) as (c & Hc & Hne & ->).
      eexists. split; [done|]. split; [simpl; lia|].
      intros p [->|Hp]%elem_of_cons.
      * exists row, c. simpl. rewrite strip_digits_empty.
        split_and!; try done. apply elem_of_cons; by left.
      * destruct (Hcity p Hp) as (row' & c' & ? & ?).
        exists row', c'. split; [apply elem_of_cons; by right|done].
    + exists found. split; [done|]. split; [simpl; lia|].
      intros p Hp. destruct (Hcity p Hp) as (row' & c' & ? & ?).
      exists row', c'. split; [apply elem_of_cons; by right|done].
Qed.

(** C9: a row with a residence whose sale date does not parse is not
    rejected: it yields, at its place among the records, a record whose
    year is [NaN]. *)
Theorem foundPeople_unparsable_date (rows1 rows2 : list Row) (row : Row)
    (c : string) :
  row !! "Bydliště" = Some c → c ≠ "" →
  Date_parse (String_of (row !! "Datum prodeje")) = None →
  ∃ found1 found2 p,
    foundPeople rows1 = Some found1 ∧ foundPeople rows2 = Some found2 ∧
    foundPeople (rows1 ++ row :: rows2) = Some (found1 ++ p :: found2) ∧
    year p = NaN ∧ city p = strip_digits c.
Proof.
  intros Hc Hne Hdate.
  destruct (foundPeople_total rows1) as [found1 H1].
  destruct (foundPeople_total rows2) as [found2 H2].
  assert (has_city row = true) as E.
  { unfold has_city. apply truthy_Some. eauto. }
  destruct (toPerson_has_city row E) as (c' & Hc' & _ & Hp).
  assert (c' = c) as -> by congruence.
  eexists found1, found2, _. split; [done|]. split; [done|].
  rewrite foundPeople_app, H1, foundPeople_cons, E, Hp, H2. simpl.
  split; [done|]. unfold sale_year. by rewrite Hdate.
Qed.

(** ** Doubles: the error of an operation

    [Prim2SF] relates the primitive operations to the reference
    implementation of IEEE-754 arithmetic: an operation is the exact one
    followed by rounding to nearest, ties to even ([binary_round_aux]).
    Values are integers in units of [2 ^ (-1074)], products in units of
    [2 ^ (-2148)]. *)

Section binary64.
Local Open Scope Z_scope.

Lemma digits2_pos_bounds (m : positive) :
  2 ^ (Z.pos (digits2_pos m) - 1) ≤ Z.pos m < 2 ^ Z.pos (digits2_pos m).
Proof.
  induction m as [m IH|m IH|]; simpl digits2_pos.
  - rewrite Pos2Z.inj_succ.
    replace (Z.succ (Z.pos (digits2_pos m)) - 1)
      with (Z.succ (Z.pos (digits2_pos m) - 1)) by lia.
    rewrite !Z.pow_succ_r by lia. lia.
  - rewrite Pos2Z.inj_succ.
    replace (Z.succ (Z.pos (digits2_pos m)) - 1)
      with (Z.succ (Z.pos (digits2_pos m) - 1)) by lia.
    rewrite !Z.pow_succ_r by lia. lia.
  - simpl. lia.
Qed.

Lemma iter_pos_succ {A} (f : A → A) (p : positive) (x : A) :
  iter_pos f (Pos.succ p) x = f (iter_pos f p x).
Proof.
  assert (∀ p x, iter_pos f p (f x) = f (iter_pos f p x)) as Hswap.
  { clear. intros p. induction p as [p IH|p IH|]; intros x; simpl.
    - by rewrite !IH.
    - by rewrite !IH.
    - done. }
  revert x. induction p as [p IH|p IH|]; intros x; simpl.
  - rewrite !IH. by rewrite !Hswap.
  - by rewrite !Hswap.
  - done.
Qed.

(** What [k] applications of [shr_1] keep of a mantissa [M]: the quotient by
    [2 ^ k], the round bit and the sticky bit. *)
Definition shifted (M k : Z) (mrs : shr_record) : Prop :=
  0 ≤ shr_m mrs ∧
  ∃ σ, 0 ≤ σ < 2 ^ k ∧
       2 * (M - shr_m mrs * 2 ^ k) = (if shr_r mrs then 2 ^ k else 0) + σ ∧
       (shr_s mrs = false ↔ σ = 0).

Lemma shifted_0 (M : Z) :
  0 ≤ M → shifted M 0 {| shr_m := M; shr_r := false; shr_s := false |}.
Proof. intros HM. split; [done|]. exists 0. simpl. lia. Qed.

Lemma shifted_shr_1 (M k : Z) (mrs : shr_record) :
  0 ≤ k → shifted M k mrs → shifted M (k + 1) (shr_1 mrs).
Proof.
  intros Hk (Hm & σ & Hσ & HM & Hs). unfold shifted.
  rewrite Z.pow_add_r by lia. change (2 ^ 1) with 2.
  pose proof (Z.pow_pos_nonneg 2 k) as Hpow.
  destruct mrs as [m r s]. simpl in *.
  destruct m as [|[p|p|]|p]; try lia; simpl.
  - split; [done|]. exists ((if r then 2 ^ k else 0) + σ).
    split; [destruct r; lia|]. split; [lia|].
    destruct r, s; simpl; split; try done; try lia; intros; tauto || lia.
  - split; [lia|]. exists ((if r then 2 ^ k else 0) + σ).
    split; [destruct r; lia|]. split; [lia|].
    destruct r, s; simpl; split; try done; try lia; intros; tauto || lia.
  - split; [lia|]. exists ((if r then 2 ^ k else 0) + σ).
    split; [destruct r; lia|]. split; [lia|].
    destruct r, s; simpl; split; try done; try lia; intros; tauto || lia.
  - split; [lia|]. exists ((if r then 2 ^ k else 0) + σ).
    split; [destruct r; lia|]. split; [lia|].
    destruct r, s; simpl; split; try done; try lia; intros; tauto || lia.
Qed.

Lemma shifted_iter_pos (M : Z) (p : positive) :
  0 ≤ M →
  shifted M (Z.pos p)
    (iter_pos shr_1 p {| shr_m := M; shr_r := false; shr_s := false |}).
Proof.
  intros HM. induction p as [|p IH] using Pos.peano_ind.
  - apply (shifted_shr_1 M 0); [done|]. by apply shifted_0.
  - rewrite iter_pos_succ, Pos2Z.inj_succ. apply shifted_shr_1; [lia|done].
Qed.

Lemma round_nearest_even_shifted (M k : Z) (mrs : shr_record) :
  0 ≤ k → shifted M k mrs →
  shr_m mrs ≤ round_nearest_even (shr_m mrs) (loc_of_shr_record mrs)
    ≤ shr_m mrs + 1
  ∧ 2 * Z.abs (round_nearest_even (shr_m mrs) (loc_of_shr_record mrs)
               * 2 ^ k - M) ≤ 2 ^ k.
Proof.
  intros Hk (Hm & σ & Hσ & HM & Hs).
  pose proof (Z.pow_pos_nonneg 2 k) as Hpow.
  destruct mrs as [m r s]. simpl in *.
  destruct r, s; simpl; try destruct (Z.even m); split; try lia.
  all: assert (σ = 0 ∨ σ ≠ 0) as [?|?] by lia; try lia.
  all: destruct Hs; try lia; try (exfalso; auto; fail).
Qed.


Local Abbreviation fexp := (SpecFloat.fexp prec emax).

Lemma fexp_eq (e : Z) : fexp e = Z.max (e - 53) (-1074).
Proof. done. Qed.

Lemma shr_fexp_exact (m : positive) (e : Z) :
  fexp (Z.pos (digits2_pos m) + e) ≤ e →
  shr_fexp prec emax (Z.pos m) e loc_Exact
  = ({| shr_m := Z.pos m; shr_r := false; shr_s := false |}, e).
Proof.
  intros He. unfold shr_fexp. simpl.
  destruct (fexp (Z.pos (digits2_pos m) + e) - e) eqn:Hn; try done. lia.
Qed.

(** Rounding a positive mantissa to the format: the result is the nearest
    multiple of [2 ^ e1], where [e1] is the exponent the format gives to
    numbers of that size. *)
Lemma binary_round_aux_spec (s : bool) (M : positive) (e : Z) :
  let e1 := Z.max e (fexp (Z.pos (digits2_pos M) + e)) in
  ∃ m2, 0 ≤ m2 ∧
    2 * Z.abs (m2 * 2 ^ (e1 - e) - Z.pos M)
      ≤ (if decide (e < e1) then 2 ^ (e1 - e) else 0) ∧
    (e1 ≤ 970 →
     is_finite (binary_round_aux prec emax s (Z.pos M) e loc_Exact) = true ∧
     ∀ K, 0 ≤ e1 + K →
       scaled K (binary_round_aux prec emax s (Z.pos M) e loc_Exact)
       = sign_Z s * m2 * 2 ^ (e1 + K)).
Proof.
  intros e1.
  remember (binary_round_aux prec emax s (Z.pos M) e loc_Exact) as res
    eqn:Hres.
  unfold binary_round_aux in Hres.
  destruct (decide (e < e1)) as [Hlt|Hge].
  - (* some bits are shifted out *)
    assert (e1 = fexp (Z.pos (digits2_pos M) + e)) as He1 by lia.
    unfold shr_fexp at 1 in Hres. simpl Zdigits2 in Hres.
    simpl shr_record_of_loc in Hres. rewrite <-He1 in Hres.
    destruct (e1 - e) as [|p|p] eqn:Hn; try lia. simpl shr in Hres.
    cbv beta iota zeta in Hres.
    pose proof (shifted_iter_pos (Z.pos M) p ltac:(done)) as Hsh.
    pose proof (round_nearest_even_shifted (Z.pos M) (Z.pos p) _
                  ltac:(done) Hsh) as [Hm2 Herr].
    destruct Hsh as (Hm1 & σ & Hσ & HM & _).
    set (mrs := iter_pos shr_1 p _) in *.
    set (m2 := round_nearest_even (shr_m mrs) (loc_of_shr_record mrs)) in *.
    replace (e + Z.pos p) with e1 in Hres by lia.
    exists m2. split; [lia|]. split; [done|]. intros Hmax.
    pose proof (digits2_pos_bounds M) as [_ HMd].
    pose proof (Z.pow_pos_nonneg 2 (Z.pos p)) as Hpow.
    assert (shr_m mrs < 2 ^ 53) as Hm1lt.
    { assert (shr_m mrs * 2 ^ Z.pos p < 2 ^ 53 * 2 ^ Z.pos p); [|nia].
      rewrite <-Z.pow_add_r by lia.
      assert (2 ^ Z.pos (digits2_pos M) ≤ 2 ^ (53 + Z.pos p)).
      { apply Z.pow_le_mono_r; [lia|]. rewrite fexp_eq in He1. lia. }
      destruct (shr_r mrs); lia. }
    assert (-1074 ≤ e1) as Hemin by (rewrite fexp_eq in He1; lia).
    clearbody m2 mrs e1.
    destruct m2 as [|q|q]; [| |lia].
    + unfold shr_fexp in Hres. simpl Zdigits2 in Hres.
      simpl shr_record_of_loc in Hres. rewrite fexp_eq in Hres.
      destruct (Z.max (0 + e1 - 53) (-1074) - e1) eqn:Hn2; try lia;
        simpl in Hres; subst res.
      all: split; [done|]; intros; simpl; lia.
    + destruct (decide (Z.pos q = 2 ^ 53)) as [Hq53|Hq53].
      * injection Hq53 as ->. unfold shr_fexp in Hres.
        change (Zdigits2 (Z.pos _)) with 54 in Hres.
        rewrite fexp_eq in Hres.
        replace (Z.max (54 + e1 - 53) (-1074) - e1) with 1 in Hres by lia.
        simpl in Hres.
        destruct (Z.leb_spec (e1 + 1) (emax - prec)) as [_|Hov];
          [|unfold emax, prec in Hov; lia].
        subst res. split; [done|]. intros K HK. simpl.
        replace (e1 + 1 + K) with (1 + (e1 + K)) by lia.
        rewrite Z.pow_add_r by lia. change (2 ^ 1) with 2. lia.
      * rewrite shr_fexp_exact in Hres.
        -- simpl in Hres.
           destruct (Z.leb_spec e1 (emax - prec)) as [_|Hov];
             [|unfold emax, prec in Hov; lia].
           subst res. split; [done|]. intros K HK. simpl. lia.
        -- pose proof (digits2_pos_bounds q) as [Hqd _].
           assert (Z.pos (digits2_pos q) - 1 < 53).
           { apply (Z.pow_lt_mono_r_iff 2); lia. }
           rewrite fexp_eq. lia.
  - (* the mantissa fits *)
    assert (e1 = e) as He1 by lia.
    assert (fexp (Z.pos (digits2_pos M) + e) ≤ e) as Hfit by lia.
    rewrite shr_fexp_exact in Hres by done. simpl in Hres.
    rewrite shr_fexp_exact in Hres by done. simpl in Hres.
    exists (Z.pos M). split; [done|]. rewrite He1, Z.sub_diag.
    split; [simpl; lia|]. intros Hmax.
    destruct (Z.leb_spec e (emax - prec)) as [_|Hov];
      [|unfold emax, prec in Hov; lia].
    subst res. split; [done|]. intros K HK. simpl. lia.
Qed.


Lemma digits2_pos_le (m : positive) (e K t : Z) :
  0 ≤ e + K → Z.pos m * 2 ^ (e + K) < 2 ^ (t + K) →
  Z.pos (digits2_pos m) + e ≤ t.
Proof.
  intros HK Hlt. pose proof (digits2_pos_bounds m) as [Hd _].
  assert (0 < Z.pos (digits2_pos m)) as Hpos by lia.
  assert (2 ^ (Z.pos (digits2_pos m) - 1 + (e + K)) < 2 ^ (t + K)) as Hp.
  { rewrite Z.pow_add_r by lia.
    pose proof (Z.pow_pos_nonneg 2 (e + K)). nia. }
  apply Z.pow_lt_mono_r_iff in Hp; [lia..|].
  destruct (decide (0 ≤ t + K)); [done|].
  rewrite (Z.pow_neg_r 2 (t + K)) in Hlt by lia.
  pose proof (Z.pow_pos_nonneg 2 (e + K)). nia.
Qed.

(** The error of [binary_round_aux], in units of [2 ^ (- K)]. *)
Lemma binary_round_aux_error (s : bool) (M : positive) (e K t : Z) :
  1074 ≤ K → 0 ≤ e + K → t ≤ 971 →
  Z.pos M * 2 ^ (e + K) < 2 ^ (t + K) →
  is_finite (binary_round_aux prec emax s (Z.pos M) e loc_Exact) = true ∧
  ∃ v, scaled 1074 (binary_round_aux prec emax s (Z.pos M) e loc_Exact) = v ∧
       scaled K (binary_round_aux prec emax s (Z.pos M) e loc_Exact)
       = v * 2 ^ (K - 1074) ∧
       2 * Z.abs (v * 2 ^ (K - 1074) - sign_Z s * Z.pos M * 2 ^ (e + K))
       ≤ 2 ^ (Z.max (t - 53) (-1074) + K).
Proof.
  intros HK HeK Ht Hlt.
  pose proof (digits2_pos_le M e K t HeK Hlt) as Hd.
  destruct (binary_round_aux_spec s M e) as (m2 & Hm2 & Herr & Hres).
  set (e1 := Z.max e (fexp (Z.pos (digits2_pos M) + e))) in *.
  assert (-1074 ≤ e1) as Hemin by (unfold e1; rewrite fexp_eq; lia).
  assert (0 < Z.pos (digits2_pos M)) as Hdpos by lia.
  assert (e1 ≤ 970) as Hmax by (unfold e1; rewrite fexp_eq; lia).
  destruct (Hres Hmax) as [Hfin Hsc]. split; [done|].
  eexists. split; [done|].
  rewrite (Hsc 1074), (Hsc K) by lia.
  assert (2 ^ (e1 + K) = 2 ^ (e1 + 1074) * 2 ^ (K - 1074)) as Hsplit.
  { rewrite <-Z.pow_add_r by lia. f_equal. lia. }
  split; [rewrite Hsplit; lia|].
  rewrite <-Z.mul_assoc, <-Hsplit.
  assert (2 ^ (e1 + K) = 2 ^ (e1 - e) * 2 ^ (e + K)) as Hsplit2.
  { rewrite <-Z.pow_add_r by lia. f_equal. lia. }
  pose proof (Z.pow_pos_nonneg 2 (e + K)) as Hpow.
  assert (2 * Z.abs (m2 * 2 ^ (e1 + K) - Z.pos M * 2 ^ (e + K))
          ≤ (if decide (e < e1) then 2 ^ (e1 + K) else 0)) as Habs.
  { rewrite Hsplit2. destruct (decide (e < e1)); nia. }
  assert (2 ^ (e1 + K) ≤ 2 ^ (Z.max (t - 53) (-1074) + K) ∨ ¬ e < e1)
    as Hbound.
  { destruct (decide (e < e1)); [left|by right].
    apply Z.pow_le_mono_r; [lia|]. unfold e1 in *.
    rewrite fexp_eq in *. lia. }
  pose proof (Z.pow_nonneg 2 (Z.max (t - 53) (-1074) + K)).
  destruct s; simpl sign_Z; destruct (decide (e < e1)); lia.
Qed.

Lemma Pos_iter_xO (m d : positive) :
  Z.pos (Pos.iter xO m d) = Z.pos m * 2 ^ Z.pos d ∧
  Z.pos (digits2_pos (Pos.iter xO m d)) = Z.pos (digits2_pos m) + Z.pos d.
Proof.
  induction d as [|d [IH1 IH2]] using Pos.peano_ind.
  - simpl. lia.
  - rewrite Pos.iter_succ. simpl digits2_pos.
    rewrite !Pos2Z.inj_succ, Z.pow_succ_r by lia.
    rewrite Pos2Z.inj_xO, IH1, IH2. lia.
Qed.

Lemma shl_align_value (m : positive) (e e' K : Z) :
  e' ≤ e → 0 ≤ e' + K →
  Z.pos (shl_align m e e').1 * 2 ^ (e' + K) = Z.pos m * 2 ^ (e + K).
Proof.
  intros Hle HK. unfold shl_align.
  destruct (e' - e) as [|d|d] eqn:Hd; try lia; simpl.
  - by replace e' with e by lia.
  - destruct (Pos_iter_xO m d) as [-> _].
    rewrite <-Z.mul_assoc, <-Z.pow_add_r by lia. do 2 f_equal. lia.
Qed.

(** The error of [binary_round], in units of [2 ^ (- K)]. *)
Lemma binary_round_error (s : bool) (M : positive) (e K t : Z) :
  1074 ≤ K → 0 ≤ e + K → t ≤ 971 →
  Z.pos M * 2 ^ (e + K) < 2 ^ (t + K) →
  is_finite (binary_round prec emax s M e) = true ∧
  ∃ v, scaled 1074 (binary_round prec emax s M e) = v ∧
       2 * Z.abs (v * 2 ^ (K - 1074) - sign_Z s * Z.pos M * 2 ^ (e + K))
       ≤ 2 ^ (Z.max (t - 53) (-1074) + K).
Proof.
  intros HK HeK Ht Hlt. unfold binary_round.
  pose proof (digits2_pos_le M e K t HeK Hlt) as Hd.
  unfold shl_align.
  destruct (fexp (Z.pos (digits2_pos M) + e) - e) as [|d|d] eqn:Hn.
  - destruct (binary_round_aux_error s M e K t) as (? & v & ? & ? & ?);
      eauto.
  - destruct (binary_round_aux_error s M e K t) as (? & v & ? & ? & ?);
      eauto.
  - destruct (Pos_iter_xO M d) as [HM' Hd'].
    set (e1 := fexp (Z.pos (digits2_pos M) + e)) in *.
    assert (-1074 ≤ e1) as Hemin by (unfold e1; rewrite fexp_eq; lia).
    assert (Z.pos (Pos.iter xO M d) * 2 ^ (e1 + K) = Z.pos M * 2 ^ (e + K))
      as Heq.
    { rewrite HM', <-Z.mul_assoc, <-Z.pow_add_r by lia. do 2 f_equal. lia. }
    destruct (binary_round_aux_error s (Pos.iter xO M d) e1 K t)
      as (? & v & ? & ? & Herr); [lia..| |].
    { by rewrite Heq. }
    split; [done|]. exists v. split; [done|].
    by rewrite <-Z.mul_assoc, Heq, Z.mul_assoc in Herr.
Qed.


Lemma bounded_inv (m : positive) (e : Z) :
  bounded prec emax m e = true →
  -1074 ≤ e ≤ 971 ∧ Z.pos m < 2 ^ 53 ∧ (-1074 < e → 2 ^ 52 ≤ Z.pos m).
Proof.
  unfold bounded, canonical_mantissa.
  intros [Hc He%Z.leb_le]%andb_prop. apply Z.eqb_eq in Hc.
  rewrite fexp_eq in Hc. unfold emax, prec in He.
  pose proof (digits2_pos_bounds m) as [Hlo Hhi].
  split; [lia|]. split.
  - assert (2 ^ Z.pos (digits2_pos m) ≤ 2 ^ 53); [|lia].
    apply Z.pow_le_mono_r; lia.
  - intros Hsub.
    replace (Z.pos (digits2_pos m) - 1) with 52 in Hlo by lia. done.
Qed.

Lemma cond_Zopp_sign (s : bool) (z : Z) : cond_Zopp s z = sign_Z s * z.
Proof. destruct s; simpl; lia. Qed.

Lemma binary_normalize_error (M e t : Z) :
  -1074 ≤ e → t ≤ 971 → Z.abs (M * 2 ^ (e + 1074)) < 2 ^ (t + 1074) →
  is_finite (binary_normalize prec emax M e false) = true ∧
  2 * Z.abs (scaled 1074 (binary_normalize prec emax M e false)
             - M * 2 ^ (e + 1074))
  ≤ 2 ^ (Z.max (t - 53) (-1074) + 1074).
Proof.
  intros He Ht HM.
  pose proof (Z.pow_nonneg 2 (Z.max (t - 53) (-1074) + 1074)).
  destruct M as [|p|p]; simpl binary_normalize.
  - simpl. split; [done|lia].
  - destruct (binary_round_error false p e 1074 t) as (Hf & v & Hv & Herr);
      [lia..| |].
    { lia. }
    split; [done|]. rewrite Hv. simpl sign_Z in Herr.
    change (2 ^ (1074 - 1074)) with 1 in Herr. lia.
  - destruct (binary_round_error true p e 1074 t) as (Hf & v & Hv & Herr);
      [lia..| |].
    { lia. }
    split; [done|]. rewrite Hv. simpl sign_Z in Herr.
    change (2 ^ (1074 - 1074)) with 1 in Herr. lia.
Qed.

(** Addition: the result is within half a unit in the last place of the
    exact sum. All values are in units of [2 ^ (-1074)]. *)
Lemma SFadd_error (x y : spec_float) (t : Z) :
  valid_binary x = true → valid_binary y = true →
  is_finite x = true → is_finite y = true → t ≤ 971 →
  Z.abs (scaled 1074 x + scaled 1074 y) < 2 ^ (t + 1074) →
  is_finite (SF64add x y) = true ∧
  2 * Z.abs (scaled 1074 (SF64add x y) - (scaled 1074 x + scaled 1074 y))
  ≤ 2 ^ (Z.max (t - 53) (-1074) + 1074).
Proof.
  intros Hvx Hvy Hfx Hfy Ht Hlt.
  pose proof (Z.pow_nonneg 2 (Z.max (t - 53) (-1074) + 1074)).
  destruct x as [sx|sx| |sx mx ex], y as [sy|sy| |sy my ey]; try done.
  - split; [by destruct sx, sy|]. destruct sx, sy; simpl; lia.
  - split; [done|]. simpl. lia.
  - split; [done|]. simpl. lia.
  - simpl in Hvx, Hvy.
    apply bounded_inv in Hvx as (Hex & _), Hvy as (Hey & _).
    unfold SF64add, SFadd.
    set (ez := Z.min ex ey).
    set (M := cond_Zopp sx _ + cond_Zopp sy _).
    assert (M * 2 ^ (ez + 1074) = scaled 1074 (S754_finite sx mx ex)
                                  + scaled 1074 (S754_finite sy my ey))
      as HM.
    { unfold M. rewrite !cond_Zopp_sign, Z.mul_add_distr_r. simpl.
      rewrite <-!Z.mul_assoc.
      rewrite !shl_align_value by (unfold ez; lia). done. }
    rewrite <-HM. rewrite <-HM in Hlt.
    apply binary_normalize_error; [unfold ez; lia|done|done].
Qed.

Lemma SFsub_error (x y : spec_float) (t : Z) :
  valid_binary x = true → valid_binary y = true →
  is_finite x = true → is_finite y = true → t ≤ 971 →
  Z.abs (scaled 1074 x - scaled 1074 y) < 2 ^ (t + 1074) →
  is_finite (SF64sub x y) = true ∧
  2 * Z.abs (scaled 1074 (SF64sub x y) - (scaled 1074 x - scaled 1074 y))
  ≤ 2 ^ (Z.max (t - 53) (-1074) + 1074).
Proof.
  intros Hvx Hvy Hfx Hfy Ht Hlt.
  pose proof (Z.pow_nonneg 2 (Z.max (t - 53) (-1074) + 1074)).
  destruct x as [sx|sx| |sx mx ex], y as [sy|sy| |sy my ey]; try done.
  - split; [by destruct sx, sy|]. destruct sx, sy; simpl; lia.
  - split; [done|]. destruct sy; simpl; lia.
  - split; [done|]. simpl. lia.
  - simpl in Hvx, Hvy.
    apply bounded_inv in Hvx as (Hex & _), Hvy as (Hey & _).
    unfold SF64sub, SFsub.
    set (ez := Z.min ex ey).
    set (M := cond_Zopp sx _ - cond_Zopp sy _).
    assert (M * 2 ^ (ez + 1074) = scaled 1074 (S754_finite sx mx ex)
                                  - scaled 1074 (S754_finite sy my ey))
      as HM.
    { unfold M. rewrite !cond_Zopp_sign, Z.mul_sub_distr_r. simpl.
      rewrite <-!Z.mul_assoc.
      rewrite !shl_align_value by (unfold ez; lia). done. }
    rewrite <-HM. rewrite <-HM in Hlt.
    apply binary_normalize_error; [unfold ez; lia|done|done].
Qed.

(** Multiplication, with the exact product in units of [2 ^ (-2148)]. *)
Lemma SFmul_error (x y : spec_float) (t : Z) :
  valid_binary x = true → valid_binary y = true →
  is_finite x = true → is_finite y = true → t ≤ 971 →
  Z.abs (scaled 1074 x * scaled 1074 y) < 2 ^ (t + 2148) →
  is_finite (SF64mul x y) = true ∧
  2 * Z.abs (scaled 1074 (SF64mul x y) * 2 ^ 1074
             - scaled 1074 x * scaled 1074 y)
  ≤ 2 ^ (Z.max (t - 53) (-1074) + 2148).
Proof.
  intros Hvx Hvy Hfx Hfy Ht Hlt.
  pose proof (Z.pow_nonneg 2 (Z.max (t - 53) (-1074) + 2148)).
  destruct x as [sx|sx| |sx mx ex], y as [sy|sy| |sy my ey]; try done.
  - split; [done|]. simpl. lia.
  - split; [done|]. simpl. lia.
  - split; [done|]. simpl. lia.
  - simpl in Hvx, Hvy.
    apply bounded_inv in Hvx as (Hex & _), Hvy as (Hey & _).
    unfold SF64mul, SFmul.
    assert (scaled 1074 (S754_finite sx mx ex)
            * scaled 1074 (S754_finite sy my ey)
            = sign_Z (xorb sx sy) * Z.pos (mx * my) * 2 ^ (ex + ey + 2148))
      as HM.
    { simpl. replace (ex + ey + 2148) with ((ex + 1074) + (ey + 1074)) by lia.
      rewrite (Z.pow_add_r 2 (ex + 1074) (ey + 1074)), Pos2Z.inj_mul by lia.
      destruct sx, sy; simpl sign_Z; ring. }
    rewrite HM. rewrite HM in Hlt.
    destruct (binary_round_aux_error (xorb sx sy) (mx * my) (ex + ey) 2148 t)
      as (Hf & v & Hv & _ & Herr); [lia..| |].
    { rewrite Z.abs_mul, Z.abs_mul in Hlt.
      pose proof (Z.pow_pos_nonneg 2 (ex + ey + 2148)).
      destruct (xorb sx sy); simpl in Hlt; lia. }
    split; [done|]. rewrite Hv.
    by change (2 ^ (2148 - 1074)) with (2 ^ 1074) in Herr.
Qed.


Lemma bounded_lt (m1 m2 : positive) (e1 e2 : Z) :
  bounded prec emax m1 e1 = true → bounded prec emax m2 e2 = true →
  e1 < e2 → Z.pos m1 * 2 ^ (e1 + 1074) < Z.pos m2 * 2 ^ (e2 + 1074).
Proof.
  intros (He1 & Hm1 & _)%bounded_inv (He2 & _ & Hm2)%bounded_inv Hlt.
  replace (e2 + 1074) with ((e2 - e1) + (e1 + 1074)) by lia.
  rewrite (Z.pow_add_r 2 (e2 - e1)) by lia.
  pose proof (Z.pow_pos_nonneg 2 (e1 + 1074)).
  assert (2 ^ 1 ≤ 2 ^ (e2 - e1)) by (apply Z.pow_le_mono_r; lia).
  change (2 ^ 1) with 2 in *. specialize (Hm2 ltac:(lia)).
  assert (Z.pos m1 < Z.pos m2 * 2 ^ (e2 - e1)) as Hm.
  { change (2 ^ 53) with (2 ^ 52 * 2) in Hm1. nia. }
  rewrite Z.mul_assoc. apply Z.mul_lt_mono_pos_r; lia.
Qed.

(** Comparison of finite numbers is the comparison of their values. *)
Lemma SFcompare_scaled (x y : spec_float) :
  valid_binary x = true → valid_binary y = true →
  is_finite x = true → is_finite y = true →
  SFcompare x y = Some (scaled 1074 x ?= scaled 1074 y).
Proof.
  intros Hvx Hvy Hfx Hfy.
  assert (∀ a b : Z, a < b → (a ?= b) = Lt) as Hlt'.
  { intros a b. apply Z.compare_lt_iff. }
  assert (∀ a b : Z, b < a → (a ?= b) = Gt) as Hgt'.
  { intros a b. apply Z.compare_gt_iff. }
  destruct x as [sx|sx| |sx mx ex], y as [sy|sy| |sy my ey]; try done.
  - simpl in Hvy. apply bounded_inv in Hvy as (Hey & _).
    pose proof (Z.pow_pos_nonneg 2 (ey + 1074) ltac:(lia) ltac:(lia)) as Hpy.
    pose proof (Z.mul_pos_pos (Z.pos my) _ ltac:(lia) Hpy).
    unfold SFcompare, scaled.
    destruct sy; simpl sign_Z; [rewrite Hgt' by lia|rewrite Hlt' by lia]; done.
  - simpl in Hvx. apply bounded_inv in Hvx as (Hex & _).
    pose proof (Z.pow_pos_nonneg 2 (ex + 1074) ltac:(lia) ltac:(lia)) as Hpx.
    pose proof (Z.mul_pos_pos (Z.pos mx) _ ltac:(lia) Hpx).
    unfold SFcompare, scaled.
    destruct sx; simpl sign_Z; [rewrite Hlt' by lia|rewrite Hgt' by lia]; done.
  - simpl in Hvx, Hvy.
    pose proof (bounded_lt mx my ex ey Hvx Hvy) as Hlt.
    pose proof (bounded_lt my mx ey ex Hvy Hvx) as Hgt.
    apply bounded_inv in Hvx as (Hex & _), Hvy as (Hey & _).
    pose proof (Z.pow_pos_nonneg 2 (ex + 1074) ltac:(lia) ltac:(lia)) as Hpx.
    pose proof (Z.mul_pos_pos (Z.pos mx) _ ltac:(lia) Hpx).
    pose proof (Z.pow_pos_nonneg 2 (ey + 1074) ltac:(lia) ltac:(lia)) as Hpy.
    pose proof (Z.mul_pos_pos (Z.pos my) _ ltac:(lia) Hpy).
    unfold SFcompare, scaled.
    destruct sx, sy; simpl sign_Z.
    + destruct (Z.compare_spec ex ey) as [->|?|?].
      * rewrite Pos.compare_cont_spec. simpl Pos.switch_Eq.
        change (mx ?= my)%positive with (Z.pos mx ?= Z.pos my).
        destruct (Z.compare_spec (Z.pos mx) (Z.pos my)) as [Heq|?|?];
          simpl CompOpp.
        -- rewrite Heq. by rewrite Z.compare_refl.
        -- rewrite Hgt'; [done|nia].
        -- rewrite Hlt'; [done|nia].
      * rewrite Hgt'; [done|lia].
      * rewrite Hlt'; [done|lia].
    + rewrite Hlt'; [done|lia].
    + rewrite Hgt'; [done|lia].
    + destruct (Z.compare_spec ex ey) as [->|?|?].
      * rewrite Pos.compare_cont_spec. simpl Pos.switch_Eq.
        change (mx ?= my)%positive with (Z.pos mx ?= Z.pos my).
        destruct (Z.compare_spec (Z.pos mx) (Z.pos my)) as [Heq|?|?].
        -- rewrite Heq. by rewrite Z.compare_refl.
        -- rewrite Hlt'; [done|nia].
        -- rewrite Hgt'; [done|nia].
      * rewrite Hlt'; [done|lia].
      * rewrite Hgt'; [done|lia].
Qed.

Lemma SFleb_scaled (x y : spec_float) :
  valid_binary x = true → valid_binary y = true →
  is_finite x = true → is_finite y = true →
  SFleb x y = true → scaled 1074 x ≤ scaled 1074 y.
Proof.
  intros Hvx Hvy Hfx Hfy. unfold SFleb.
  rewrite SFcompare_scaled by done.
  destruct (Z.compare_spec (scaled 1074 x) (scaled 1074 y)); [lia..|done].
Qed.

Lemma SFltb_scaled (x y : spec_float) :
  valid_binary x = true → valid_binary y = true →
  is_finite x = true → is_finite y = true →
  SFltb x y = true → scaled 1074 x < scaled 1074 y.
Proof.
  intros Hvx Hvy Hfx Hfy. unfold SFltb.
  rewrite SFcompare_scaled by done.
  destruct (Z.compare_spec (scaled 1074 x) (scaled 1074 y)); [done|lia|done].
Qed.


Lemma SFabs_scaled (x : spec_float) :
  valid_binary (SFabs x) = valid_binary x ∧
  is_finite (SFabs x) = is_finite x ∧
  (-1074 ≤ match x with S754_finite _ _ e => e | _ => 0 end →
   scaled 1074 (SFabs x) = Z.abs (scaled 1074 x)).
Proof.
  destruct x as [s|s| |s m e]; try done. simpl. split; [done|].
  split; [done|]. intros He.
  pose proof (Z.pow_pos_nonneg 2 (e + 1074) ltac:(lia) ltac:(lia)) as Hp.
  pose proof (Z.mul_pos_pos (Z.pos m) _ ltac:(lia) Hp).
  destruct s; simpl sign_Z; lia.
Qed.

(** A number whose magnitude is at most 180. *)
Lemma abs_leb_180 (x : float) :
  (abs x <=? 180)%float = true →
  is_finite (Prim2SF x) = true ∧ Z.abs (units x) ≤ 180 * 2 ^ 1074.
Proof.
  rewrite leb_spec, abs_spec. intros Hle.
  pose proof (Prim2SF_valid x) as Hv. unfold units.
  destruct (SFabs_scaled (Prim2SF x)) as (Hva & Hfa & Hsa).
  assert (is_finite (Prim2SF x) = true) as Hf.
  { destruct (Prim2SF x) as [s|s| |s m e]; try done. }
  split; [done|].
  rewrite <-Hsa.
  - apply (SFleb_scaled _ (Prim2SF 180)) in Hle; try done; try congruence.
  - destruct (Prim2SF x) as [s|s| |s m e]; try lia.
    simpl in Hv. apply bounded_inv in Hv. lia.
Qed.

(** A number in [[0, 1)]. *)
Lemma unit_interval (r : float) :
  (0 <=? r)%float = true → (r <? 1)%float = true →
  is_finite (Prim2SF r) = true ∧ 0 ≤ units r < 2 ^ 1074.
Proof.
  rewrite leb_spec, ltb_spec. intros Hle Hlt.
  pose proof (Prim2SF_valid r) as Hv. unfold units.
  assert (is_finite (Prim2SF r) = true) as Hf.
  { destruct (Prim2SF r) as [s|[]| |s m e]; try done. }
  split; [done|].
  apply (SFleb_scaled (Prim2SF 0)) in Hle; try done.
  apply (SFltb_scaled _ (Prim2SF 1)) in Hlt; try done.
Qed.

(** The offset [(r - 0.5) * 0.005] added to a coordinate [x], as
    [addRandomOffset] computes it: three operations, each rounded to the
    nearest double. *)
Lemma offset_error (x r : float) :
  (abs x <=? 180)%float = true →
  (0 <=? r)%float = true → (r <? 1)%float = true →
  is_finite (Prim2SF (x + (r - 0.5) * 0.005)%float) = true ∧
  400 * Z.abs (units (x + (r - 0.5) * 0.005)%float - units x)
  ≤ 2 ^ 1074 + 400 * 2 ^ 1029.
Proof.
  intros [Hfx Hx]%abs_leb_180 Hr0 Hr1.
  destruct (unit_interval r Hr0 Hr1) as [Hfr Hr]. unfold units in *.
  rewrite add_spec, mul_spec, sub_spec.
  pose proof (Prim2SF_valid x) as Hvx.
  pose proof (Prim2SF_valid r) as Hvr.
  pose proof (Prim2SF_valid (r - 0.5)%float) as Hvt.
  pose proof (Prim2SF_valid ((r - 0.5) * 0.005)%float) as Hvo.
  rewrite mul_spec, sub_spec in Hvo. rewrite sub_spec in Hvt.
  set (X := Prim2SF x) in *. set (R := Prim2SF r) in *.
  set (H := Prim2SF 0.5) in *. set (C := Prim2SF 0.005) in *.
  assert (scaled 1074 H = 2 ^ 1073) as HH by done.
  assert (scaled 1074 C = 5764607523034235 * 2 ^ 1014) as HC by done.
  destruct (SFsub_error R H 0) as [Hft Ht];
    [assumption|reflexivity|assumption|reflexivity|lia| |].
  { rewrite HH. change (2 ^ (0 + 1074)) with (2 * 2 ^ 1073). lia. }
  set (T := SF64sub R H) in *.
  change (2 ^ (Z.max (0 - 53) (-1074) + 1074)) with (2 ^ 1021) in Ht.
  destruct (SFmul_error T C (-8)) as [Hfo Ho];
    [assumption|reflexivity|assumption|reflexivity|lia| |].
  { rewrite HC. rewrite HH in Ht. lia. }
  set (O := SF64mul T C) in *.
  change (2 ^ (Z.max (-8 - 53) (-1074) + 2148)) with (2 ^ 2087) in Ho.
  destruct (SFadd_error X O 8) as [Hfout Hout];
    [assumption|assumption|assumption|assumption|lia| |].
  { rewrite HC, HH in *. lia. }
  change (2 ^ (Z.max (8 - 53) (-1074) + 1074)) with (2 ^ 1029) in Hout.
  split; [assumption|].
  rewrite HC, HH in *. lia.
Qed.


Lemma Qmult_inject_Z_div (a b : Z) (c : positive) :
  (inject_Z a * (inject_Z b / inject_Z (Z.pos c)) == (a * b) # c)%Q.
Proof.
  unfold Qeq, Qdiv, Qmult, Qinv, inject_Z. simpl. lia.
Qed.

Lemma SF2Q_scaled (x : spec_float) :
  valid_binary x = true →
  (SF2Q x == scaled 1074 x # 2 ^ 1074)%Q.
Proof.
  destruct x as [s|s| |s m e]; try done. simpl.
  intros (He & _)%bounded_inv.
  assert (¬ (2 == 0)%Q) as H2 by done.
  assert ((2 ^ e == inject_Z (2 ^ (e + 1074))
                    / inject_Z (Z.pos (2 ^ 1074)))%Q) as ->.
  { rewrite Pos2Z.inj_pow, !Zpower_Qpower by lia.
    change (inject_Z 2) with 2%Q.
    rewrite Qpower_plus by done.
    by field. }
  rewrite Qmult_inject_Z_div, cond_Zopp_sign. done.
Qed.

Lemma Qabs_Qminus_Qmake (a b : Z) (p : positive) :
  (Qabs ((a # p) - (b # p)) == Z.abs (a - b) # p)%Q.
Proof.
  assert (((a # p) - (b # p) == (a - b) # p)%Q) as ->; [|done].
  unfold Qeq, Qminus, Qplus, Qopp. simpl. rewrite Pos2Z.inj_mul. ring.
Qed.

(** The coordinate [x] plus the offset [(r - 0.5) * 0.005], computed on
    doubles, is a finite number within [0.0025 + 2 ^ (-45)] of [x]. *)
Lemma offset_within (x r : float) :
  (abs x <=? 180)%float = true →
  (0 <=? r)%float = true → (r <? 1)%float = true →
  Number_isFinite (x + (r - 0.5) * 0.005)%float = true ∧
  (Qabs (value (x + (r - 0.5) * 0.005)%float - value x)
   <= 0.0025 + 2 ^ (-45))%Q.
Proof.
  intros Hx Hr0 Hr1.
  destruct (offset_error x r Hx Hr0 Hr1) as [Hfin Herr].
  split; [exact Hfin|]. clear Hfin.
  unfold value. rewrite !SF2Q_scaled by apply Prim2SF_valid.
  rewrite Qabs_Qminus_Qmake. fold (units x) (units (x + (r - 0.5) * 0.005)).
  set (d := Z.abs _) in *. clearbody d.
  let b := eval vm_compute in (0.0025 + 2 ^ (-45))%Q in
  change (0.0025 + 2 ^ (-45))%Q with b.
  unfold Qle. cbn [Qnum Qden]. rewrite Pos2Z.inj_pow. lia.
Qed.

End binary64.

(** ** Jitter and the geocoder client *)

(** C8: the jitter computes on doubles.  When the input coordinates have a
    magnitude of at most 180 and the two draws of [Math.random] lie in
    [[0, 1)], the output coordinates are finite numbers within
    [0.0025 + 2 ^ (-45)] of the input in latitude and in longitude, the
    doubles taken as the numbers they denote.  The bound 0.0025 itself does
    not hold: the sum of a coordinate and an offset is rounded to the
    nearest double. *)
Theorem addRandomOffset_within (location : LatLng) (k : nat) :
  (abs (lat location) <=? 180)%float = true →
  (abs (lng location) <=? 180)%float = true →
  (0 <=? Math_random k)%float = true →
  (Math_random k <? 1)%float = true →
  (0 <=? Math_random (S k))%float = true →
  (Math_random (S k) <? 1)%float = true →
  (Number_isFinite (lat (addRandomOffset location k).1) = true
   ∧ (Qabs (value (lat (addRandomOffset location k).1)
            - value (lat location))
      <= 0.0025 + 2 ^ (-45))%Q)
  ∧ (Number_isFinite (lng (addRandomOffset location k).1) = true
     ∧ (Qabs (value (lng (addRandomOffset location k).1)
              - value (lng location))
        <= 0.0025 + 2 ^ (-45))%Q).
Proof.
  intros Hlat Hlng Ha0 Ha1 Hb0 Hb1. unfold addRandomOffset. cbn [fst lat lng].
  split; apply offset_within; assumption.
Qed.

Lemma fetchCityLocation_person (response : Response) (p : Person)
    (st : State) (k : nat) (v : PersonWithLocation) :
  (fetchCityLocation response p st k).1.1 = Some v → person v = p.
Proof.
  destruct response as [|features]; simpl; [done|].
  destruct (features ≫= head); simpl; by intros [= <-].
Qed.

Lemma fetchCityLocation_Some (response : Response) (p : Person)
    (st : State) (k : nat) :
  is_Some (fetchCityLocation response p st k).1.1
  ↔ response ≠ LookupFailure.
Proof.
  destruct response as [|features]; simpl.
  - split; [by intros [? ?]|done].
  - by destruct (features ≫= head).
Qed.

(** C5: a response with at least one candidate gives the record the
    first candidate's coordinates, latitude taken from the second
    component and longitude from the first, each moved by the jitter; a
    response without candidates ([features] missing or empty) gives the
    record back without a location, and the lookup is fulfilled, not
    rejected. *)
Theorem fetchCityLocation_location (p : Person) (st : State) (k : nat)
    (features : option (list Feature)) :
  (∀ f fs, features = Some (f :: fs) →
     ∃ loc,
       (fetchCityLocation (Data features) p st k).1.1
         = Some {| person := p; location := Some loc |} ∧
       loc = (addRandomOffset {| lat := (coordinates f).2;
                                 lng := (coordinates f).1 |} k).1 ∧
       lat loc = ((coordinates f).2
                  + (Math_random k - 0.5) * 0.005)%float ∧
       lng loc = ((coordinates f).1
                  + (Math_random (S k) - 0.5) * 0.005)%float)
  ∧ (features = None ∨ features = Some [] →
     (fetchCityLocation (Data features) p st k).1.1
       = Some {| person := p; location := None |}
     ∧ (lookup_callback (Data features) p st k).1.1
       = Some {| person := p; location := None |}).
Proof.
  split.
  - intros f fs ->. eexists. simpl. done.
  - by intros [-> | ->].
Qed.

(** ** [Promise.all] *)

Lemma Promise_all_Rejected {A} (ps : list (promise A)) :
  Promise_all ps = Rejected ↔ Rejected ∈ ps.
Proof.
  unfold Promise_all. destruct (existsb is_rejected ps) eqn:E.
  - split; [intros _|done]. apply existsb_exists in E as (x & Hin & Hx).
    destruct x; try done. by apply list_elem_of_In.
  - split; [by destruct (mapM _ _)|]. intros Hin.
    assert (existsb is_rejected ps = true) as E'; [|congruence].
    apply existsb_exists. exists Rejected. by rewrite <-list_elem_of_In.
Qed.

Lemma mapM_fulfilled_value {A} (ps : list (promise A)) (vs : list A) :
  mapM fulfilled_value ps = Some vs ↔ ps = Fulfilled <$> vs.
Proof.
  rewrite mapM_Some. split.
  - induction 1 as [|p v ps vs Hp _ IH]; [done|].
    destruct p; by simplify_eq/=.
  - intros ->. induction vs; by constructor.
Qed.

Lemma Promise_all_Fulfilled {A} (ps : list (promise A)) (vs : list A) :
  Promise_all ps = Fulfilled vs ↔ ps = Fulfilled <$> vs.
Proof.
  unfold Promise_all. split.
  - destruct (existsb is_rejected ps); [done|].
    destruct (mapM _ _) as [vs'|] eqn:E; [|done].
    intros [= <-]. by apply mapM_fulfilled_value.
  - intros ->.
    assert (existsb is_rejected (Fulfilled <$> vs) = false) as ->.
    { induction vs; simpl; auto. }
    by rewrite (proj2 (mapM_fulfilled_value _ vs) eq_refl).
Qed.

(** ** The orchestrator *)

Lemma lookup_callback_LookupFailure (p : Person) (st : State) (k : nat) :
  lookup_callback LookupFailure p st k = (None, st, k).
Proof. reflexivity. Qed.

(** A lookup that is answered advances the counter twice: once in
    [fetchCityLocation], once in the callback of [foundPeople.map]. *)
Lemma lookup_callback_Data (features : option (list Feature)) (p : Person)
    (st : State) (k : nat) :
  ∃ v k',
    lookup_callback (Data features) p st k
      = (Some v,
         setProcessedPeople (λ prev, prev + 1)
           (setProcessedPeople (λ state, state + 1) st), k')
    ∧ (fetchCityLocation (Data features) p st k).1.1 = Some v.
Proof.
  unfold lookup_callback, fetchCityLocation.
  destruct (features ≫= head); simpl; eauto.
Qed.

Lemma fulfilled_insert_Fulfilled (ps : list (promise PersonWithLocation))
    (i : nat) (v : PersonWithLocation) :
  ps !! i = Some Pending →
  length (omap fulfilled_value (<[i := Fulfilled v]> ps))
  = S (length (omap fulfilled_value ps)).
Proof.
  revert i. induction ps as [|q ps IH]; intros [|i] H; simplify_eq/=.
  - done.
  - specialize (IH i H). destruct q; simpl; by rewrite ?IH.
Qed.

Lemma fulfilled_insert_Rejected (ps : list (promise PersonWithLocation))
    (i : nat) :
  ps !! i = Some Pending →
  length (omap fulfilled_value (<[i := Rejected]> ps))
  = length (omap fulfilled_value ps).
Proof.
  revert i. induction ps as [|q ps IH]; intros [|i] H; simplify_eq/=.
  - done.
  - specialize (IH i H). destruct q; simpl; by rewrite ?IH.
Qed.

Lemma resume_lookups (run : Run) : lookups (resume run) = lookups run.
Proof.
  unfold resume. destruct (awaited run); [|done..].
  by destruct (Promise_all (lookups run)).
Qed.

Section resolveAll_facts.
Context (found : list Person) (responses : nat → Response).
Context (st0 : State).

(** What holds of an execution at every moment. *)
Record run_inv (run : Run) : Prop := {
  inv_awaited : awaited run = Promise_all (lookups run);
  inv_length : length (lookups run) = length found;
  inv_fulfilled : ∀ i v,
    lookups run !! i = Some (Fulfilled v) →
    ∃ p st k, found !! i = Some p ∧
      (fetchCityLocation (responses i) p st k).1.1 = Some v;
  inv_rejected : ∀ i,
    lookups run !! i = Some Rejected → responses i = LookupFailure;
  inv_processed :
    processedPeople (ui run)
    = 2 * length (omap fulfilled_value (lookups run));
  inv_total : totalPeople (ui run) = length found;
  inv_people :
    people (ui run)
    = match awaited run with
      | Fulfilled assignedPeople =>
          Array_sort by_year (List.filter not_null assignedPeople)
      | _ => people st0
      end;
  inv_loading :
    isLoading (ui run)
    = match awaited run with Pending => true | _ => false end;
  inv_filteredYear : filteredYear (ui run) = filteredYear st0
}.

(** [resume] keeps the invariant when it is called on a state that
    satisfies everything but the link between [awaited] and the
    lookups. *)
Lemma resume_inv (run : Run) :
  (awaited run = Pending ∨ awaited run = Promise_all (lookups run)) →
  length (lookups run) = length found →
  (∀ i v, lookups run !! i = Some (Fulfilled v) →
     ∃ p st k, found !! i = Some p ∧
       (fetchCityLocation (responses i) p st k).1.1 = Some v) →
  (∀ i, lookups run !! i = Some Rejected →
     responses i = LookupFailure) →
  processedPeople (ui run)
    = 2 * length (omap fulfilled_value (lookups run)) →
  totalPeople (ui run) = length found →
  (awaited run = Pending → people (ui run) = people st0) →
  (awaited run = Pending → isLoading (ui run) = true) →
  (awaited run ≠ Pending → run_inv run) →
  filteredYear (ui run) = filteredYear st0 →
  run_inv (resume run).
Proof.
  intros Haw Hlen Hful Hrej Hproc Htot Hpeople Hload Hdone Hfy.
  unfold resume. destruct (awaited run) eqn:E.
  - destruct (Promise_all (lookups run)) eqn:EP.
    + split; simpl; rewrite ?E; auto.
    + split; simpl; auto.
    + split; simpl; auto.
  - by apply Hdone.
  - by apply Hdone.
Qed.

Lemma fan_out_inv (k : nat) : run_inv (fan_out found st0 k).
Proof.
  unfold fan_out. apply resume_inv; simpl; auto.
  - apply length_replicate.
  - intros i v [[=] _]%lookup_replicate.
  - intros i [[=] _]%lookup_replicate.
  - assert (∀ n, omap fulfilled_value
                   (replicate n (@Pending PersonWithLocation)) = [])
      as ->; [|done].
    intros n. by induction n.
  - done.
Qed.

Lemma settle_inv (i : nat) (run : Run) :
  run_inv run → run_inv (settle found responses i run).
Proof.
  intros Hinv. unfold settle.
  destruct (found !! i) as [p|] eqn:Hp; [|done].
  destruct (lookups run !! i) as [[|v|]|] eqn:Hi; try done.
  assert (awaited run = Pending
          ∨ awaited run = Rejected
            ∧ ∀ x, Promise_all (<[i := x]> (lookups run)) = Rejected)
    as Hcase.
  { pose proof (inv_awaited _ Hinv) as Haw.
    destruct (awaited run) as [|vs|]; [by left| |right].
    - exfalso. symmetry in Haw. apply Promise_all_Fulfilled in Haw.
      rewrite Haw, list_lookup_fmap in Hi. by destruct (vs !! i).
    - split; [done|]. intros x. symmetry in Haw.
      apply Promise_all_Rejected in Haw.
      apply list_elem_of_lookup in Haw as [j Hj].
      apply Promise_all_Rejected, list_elem_of_lookup. exists j.
      rewrite list_lookup_insert_ne; [done|]. intros ->. congruence. }
  assert (i < length (lookups run)) as Hlt by by eapply lookup_lt_Some.
  pose proof (inv_length _ Hinv) as Hlen.
  pose proof (inv_fulfilled _ Hinv) as Hful.
  pose proof (inv_rejected _ Hinv) as Hrej.
  pose proof (inv_processed _ Hinv) as Hproc.
  pose proof (inv_total _ Hinv) as Htot.
  pose proof (inv_people _ Hinv) as Hpeople.
  pose proof (inv_loading _ Hinv) as Hload.
  pose proof (inv_filteredYear _ Hinv) as Hfy.
  destruct (responses i) as [|features] eqn:Hr.
  - (* the lookup is rejected *)
    rewrite lookup_callback_LookupFailure.
    assert (∀ j v, <[i := Rejected]> (lookups run) !! j
                     = Some (Fulfilled v) →
              ∃ p st k, found !! j = Some p ∧
                (fetchCityLocation (responses j) p st k).1.1 = Some v)
      as Hful'.
    { intros j v Hj. destruct (decide (i = j)) as [->|Hne].
      - by rewrite list_lookup_insert_eq in Hj.
      - rewrite list_lookup_insert_ne in Hj by done. by apply Hful. }
    assert (∀ j, <[i := Rejected]> (lookups run) !! j = Some Rejected →
              responses j = LookupFailure) as Hrej'.
    { intros j Hj. destruct (decide (i = j)) as [->|Hne]; [done|].
      rewrite list_lookup_insert_ne in Hj by done. by apply Hrej. }
    apply resume_inv; simpl;
      rewrite ?length_insert, ?fulfilled_insert_Rejected by done;
      try done.
    + destruct Hcase as [->|[-> H]]; [by left|right; by rewrite H].
    + intros E. by rewrite Hpeople, E.
    + intros E. by rewrite Hload, E.
    + destruct Hcase as [E|[E H]]; [done|]. intros _.
      split; simpl;
        rewrite ?length_insert, ?fulfilled_insert_Rejected by done;
        try done.
      by rewrite H.
  - (* the lookup is fulfilled *)
    destruct (lookup_callback_Data features p (ui run)
                (random_calls run)) as (v & k' & -> & Hv).
    assert (∀ j w, <[i := Fulfilled v]> (lookups run) !! j
                     = Some (Fulfilled w) →
              ∃ p st k, found !! j = Some p ∧
                (fetchCityLocation (responses j) p st k).1.1 = Some w)
      as Hful'.
    { intros j w Hj. destruct (decide (i = j)) as [->|Hne].
      - rewrite list_lookup_insert_eq in Hj by done.
        injection Hj as <-. exists p, (ui run), (random_calls run).
        by rewrite Hr.
      - rewrite list_lookup_insert_ne in Hj by done. by apply Hful. }
    assert (∀ j, <[i := Fulfilled v]> (lookups run) !! j
                   = Some Rejected →
              responses j = LookupFailure) as Hrej'.
    { intros j Hj. destruct (decide (i = j)) as [->|Hne].
      - by rewrite list_lookup_insert_eq in Hj.
      - rewrite list_lookup_insert_ne in Hj by done. by apply Hrej. }
    apply resume_inv; simpl;
      rewrite ?length_insert, ?fulfilled_insert_Fulfilled by done;
      try done.
    + destruct Hcase as [->|[-> H]]; [by left|right; by rewrite H].
    + rewrite Hproc. lia.
    + intros E. by rewrite Hpeople, E.
    + intros E. by rewrite Hload, E.
    + destruct Hcase as [E|[E H]]; [done|]. intros _.
      split; simpl;
        rewrite ?length_insert, ?fulfilled_insert_Fulfilled by done;
        try done.
      * by rewrite H.
      * rewrite Hproc. lia.
Qed.

Lemma resolveAll_inv (arrivals : list nat) (k : nat) :
  run_inv (resolveAll found responses arrivals st0 k).
Proof.
  unfold resolveAll. generalize (fan_out_inv k).
  generalize (fan_out found st0 k). intros run Hrun.
  revert run Hrun.
  induction arrivals as [|i arrivals IH]; intros run Hrun; [done|].
  simpl. by apply IH, settle_inv.
Qed.

(** Lookup [j] is no longer pending. *)
Definition settled_at (run : Run) (j : nat) : Prop :=
  ∃ x, lookups run !! j = Some x ∧ x ≠ Pending.

Lemma lookups_settle (i : nat) (run : Run) :
  lookups (settle found responses i run)
  = match found !! i, lookups run !! i with
    | Some p, Some Pending =>
        <[i := match (lookup_callback (responses i) p (ui run)
                        (random_calls run)).1.1 with
               | Some v => Fulfilled v
               | None => Rejected
               end]> (lookups run)
    | _, _ => lookups run
    end.
Proof.
  unfold settle. destruct (found !! i) as [p|]; [|done].
  destruct (lookups run !! i) as [[|v|]|]; try done.
  destruct (lookup_callback _ _ _ _) as [[r st] k].
  by rewrite resume_lookups.
Qed.

Lemma lookups_settle_length (i : nat) (run : Run) :
  length (lookups (settle found responses i run))
  = length (lookups run).
Proof.
  rewrite lookups_settle. destruct (found !! i) as [p|]; [|done].
  destruct (lookups run !! i) as [[|v|]|]; try done.
  by rewrite length_insert.
Qed.

Lemma settle_settles (i : nat) (run : Run) :
  length (lookups run) = length found → i < length found →
  settled_at (settle found responses i run) i.
Proof.
  intros Hlen Hi. unfold settled_at. rewrite lookups_settle.
  destruct (lookup_lt_is_Some_2 found i Hi) as [p ->].
  destruct (lookup_lt_is_Some_2 (lookups run) i) as [x Hx]; [lia|].
  rewrite Hx. destruct x as [|v|]; [|by eauto..].
  rewrite list_lookup_insert_eq by lia.
  eexists; split; [done|]. by destruct (_.1.1).
Qed.

Lemma settle_keeps (i j : nat) (run : Run) :
  settled_at run j → settled_at (settle found responses i run) j.
Proof.
  intros (x & Hx & Hne). unfold settled_at. rewrite lookups_settle.
  destruct (found !! i) as [p|]; [|by eauto].
  destruct (lookups run !! i) as [[|v|]|] eqn:Hi; try by eauto.
  destruct (decide (i = j)) as [->|Hij]; [congruence|].
  rewrite list_lookup_insert_ne by done. eauto.
Qed.

Lemma resolveAll_settled (arrivals : list nat) (k i : nat) :
  i ∈ arrivals → i < length found →
  settled_at (resolveAll found responses arrivals st0 k) i.
Proof.
  intros Hin Hi. unfold resolveAll.
  generalize (inv_length _ (fan_out_inv k)).
  generalize (fan_out found st0 k). intros run Hlen.
  assert (∀ l run, settled_at run i →
            settled_at
              (foldl (λ run i, settle found responses i run) run l) i)
    as Hkeep.
  { intros l. induction l as [|a l IH]; intros run' H; [done|].
    simpl. by apply IH, settle_keeps. }
  revert run Hlen.
  induction arrivals as [|a arrivals IH]; intros run Hlen.
  - by apply elem_of_nil in Hin.
  - simpl. apply elem_of_cons in Hin as [->|Hin].
    + by apply Hkeep, settle_settles.
    + apply IH; [done|]. by rewrite lookups_settle_length.
Qed.

(** When every lookup is answered and every answer has arrived,
    [Promise.all] is fulfilled with one resolved record per input
    record, in input order. *)
Lemma resolveAll_success (arrivals : list nat) (k : nat) :
  (∀ i, i < length found → responses i ≠ LookupFailure) →
  (∀ i, i < length found → i ∈ arrivals) →
  ∃ assignedPeople,
    awaited (resolveAll found responses arrivals st0 k)
      = Fulfilled assignedPeople ∧
    lookups (resolveAll found responses arrivals st0 k)
      = Fulfilled <$> assignedPeople ∧
    person <$> assignedPeople = found.
Proof.
  intros Hdata Hall.
  pose proof (resolveAll_inv arrivals k) as Hinv.
  pose proof (λ i, resolveAll_settled arrivals k i) as Hset.
  set (run := resolveAll found responses arrivals st0 k) in *.
  assert (Forall (λ x, ∃ v, x = Fulfilled v) (lookups run)) as Hful.
  { apply Forall_lookup. intros i x Hx.
    assert (i < length found) as Hi.
    { rewrite <-(inv_length _ Hinv). by eapply lookup_lt_Some. }
    destruct (Hset i (Hall i Hi) Hi) as (x' & Hx' & Hne).
    assert (x' = x) as -> by congruence.
    destruct x as [|v|]; [done|by eauto|].
    by destruct (Hdata i Hi), (inv_rejected _ Hinv i). }
  assert (∃ vs, lookups run = Fulfilled <$> vs) as [vs Hvs].
  { clear -Hful.
    induction Hful as [|? ? [v ->] _ [vs ->]];
      [by exists []|by exists (v :: vs)]. }
  exists vs. split; [|split; [done|]].
  - rewrite (inv_awaited _ Hinv). by apply Promise_all_Fulfilled.
  - apply list_eq. intros i. rewrite list_lookup_fmap.
    destruct (vs !! i) as [v|] eqn:E; simpl.
    + destruct (inv_fulfilled _ Hinv i v) as (p & st & k' & -> & Hv).
      { by rewrite Hvs, list_lookup_fmap, E. }
      by rewrite (fetchCityLocation_person _ _ _ _ _ Hv).
    + symmetry. apply lookup_ge_None.
      rewrite <-(inv_length _ Hinv), Hvs, length_fmap.
      by apply lookup_ge_None.
Qed.

(** C2 (what the code does): in a run in which every lookup is
    answered, the counter ends at twice the total, because every
    answered lookup advances it once in [fetchCityLocation] and once
    more in the callback of [foundPeople.map]; the total is the number
    of records. *)
Theorem resolveAll_processed_twice (arrivals : list nat) (k : nat) :
  (∀ i, i < length found → responses i ≠ LookupFailure) →
  (∀ i, i < length found → i ∈ arrivals) →
  totalPeople (ui (resolveAll found responses arrivals st0 k))
    = length found ∧
  processedPeople (ui (resolveAll found responses arrivals st0 k))
    = 2 * length found.
Proof.
  intros Hdata Hall.
  destruct (resolveAll_success arrivals k Hdata Hall)
    as (vs & _ & Hl & Hvs).
  pose proof (resolveAll_inv arrivals k) as Hinv.
  split; [apply Hinv|]. rewrite (inv_processed _ Hinv), Hl.
  f_equal. rewrite <-Hvs, length_fmap. clear.
  induction vs; simpl; by f_equal.
Qed.

(** C3: when a lookup fails, the list of resolved people stays what it
    was before the run, whatever has arrived so far: [Promise.all] is
    never fulfilled, and it is rejected, with the loading flag cleared,
    as soon as the failure has arrived. *)
Theorem resolveAll_failure (arrivals : list nat) (k j : nat) :
  j < length found → responses j = LookupFailure →
  people (ui (resolveAll found responses arrivals st0 k)) = people st0
  ∧ (∀ assignedPeople,
       awaited (resolveAll found responses arrivals st0 k)
       ≠ Fulfilled assignedPeople)
  ∧ (j ∈ arrivals →
     awaited (resolveAll found responses arrivals st0 k) = Rejected
     ∧ isLoading (ui (resolveAll found responses arrivals st0 k))
       = false).
Proof.
  intros Hj Hfail.
  pose proof (resolveAll_inv arrivals k) as Hinv.
  pose proof (resolveAll_settled arrivals k j) as Hset.
  set (run := resolveAll found responses arrivals st0 k) in *.
  assert (∀ vs, awaited run ≠ Fulfilled vs) as Hnot.
  { intros vs E. rewrite (inv_awaited _ Hinv) in E.
    apply Promise_all_Fulfilled in E.
    assert (j < length vs) as Hlt.
    { by rewrite <-(length_fmap Fulfilled vs), <-E,
        (inv_length _ Hinv). }
    destruct (lookup_lt_is_Some_2 vs j Hlt) as [v Hv].
    destruct (inv_fulfilled _ Hinv j v) as (p & st & k' & _ & Hsome).
    { by rewrite E, list_lookup_fmap, Hv. }
    by rewrite Hfail in Hsome. }
  split; [|split; [done|]].
  - rewrite (inv_people _ Hinv).
    destruct (awaited run) as [|vs|] eqn:E; [done| |done].
    by destruct (Hnot vs).
  - intros Hin. destruct (Hset Hin Hj) as (x & Hx & Hne).
    assert (awaited run = Rejected) as E.
    { rewrite (inv_awaited _ Hinv). apply Promise_all_Rejected.
      apply list_elem_of_lookup. exists j.
      destruct x as [|v|]; [done| |done].
      destruct (inv_fulfilled _ Hinv j v Hx) as (p & st & k' & _ & H).
      by rewrite Hfail in H. }
    split; [done|]. by rewrite (inv_loading _ Hinv), E.
Qed.

(** C10: in a run in which every lookup is answered, the null filter
    removes nothing, the new list of people has as many entries as
    there are records, and their person parts are the records
    themselves, in the order the sort puts them. *)
Theorem resolveAll_keeps_records (arrivals : list nat) (k : nat) :
  (∀ i, i < length found → responses i ≠ LookupFailure) →
  (∀ i, i < length found → i ∈ arrivals) →
  ∃ assignedPeople,
    awaited (resolveAll found responses arrivals st0 k)
      = Fulfilled assignedPeople ∧
    person <$> assignedPeople = found ∧
    List.filter not_null assignedPeople = assignedPeople ∧
    people (ui (resolveAll found responses arrivals st0 k))
      = Array_sort by_year assignedPeople ∧
    length (people (ui (resolveAll found responses arrivals st0 k)))
      = length found ∧
    person <$> people (ui (resolveAll found responses arrivals st0 k))
      = Array_sort (by_key year) found ∧
    person <$> people (ui (resolveAll found responses arrivals st0 k))
      ≡ₚ found.
Proof.
  intros Hdata Hall.
  destruct (resolveAll_success arrivals k Hdata Hall)
    as (vs & Haw & _ & Hvs).
  pose proof (resolveAll_inv arrivals k) as Hinv.
  assert (List.filter not_null vs = vs) as Hnn.
  { clear. induction vs; simpl; by f_equal. }
  assert (people (ui (resolveAll found responses arrivals st0 k))
          = Array_sort by_year vs) as Hpeople.
  { by rewrite (inv_people _ Hinv), Haw, Hnn. }
  assert (person <$> Array_sort by_year vs
          = Array_sort (by_key year) found) as Hmap.
  { rewrite <-Hvs. apply (Array_sort_map year person). }
  exists vs. rewrite Hpeople, Hmap.
  split_and!; try done.
  - by rewrite Array_sort_length, <-Hvs, length_fmap.
  - apply Array_sort_Permutation.
Qed.

(** C4 (as amended): in a run in which every lookup is answered, and
    when no record has the year [NaN], the new list of people is in
    ascending order of year, and the records of any one year are in the
    order they had in the input. *)
Theorem resolveAll_sorted_stable (arrivals : list nat) (k : nat) :
  (∀ i, i < length found → responses i ≠ LookupFailure) →
  (∀ i, i < length found → i ∈ arrivals) →
  Forall (λ p, year p ≠ NaN) found →
  StronglySorted (key_le (λ a, year (person a)))
    (people (ui (resolveAll found responses arrivals st0 k)))
  ∧ ∀ n,
      person <$> List.filter (λ a, bool_decide (year (person a) = n))
        (people (ui (resolveAll found responses arrivals st0 k)))
      = List.filter (λ p, bool_decide (year p = n)) found.
Proof.
  intros Hdata Hall Hyears.
  destruct (resolveAll_success arrivals k Hdata Hall)
    as (vs & Haw & _ & Hvs).
  pose proof (resolveAll_inv arrivals k) as Hinv.
  assert (List.filter not_null vs = vs) as Hnn.
  { clear. induction vs; simpl; by f_equal. }
  rewrite (inv_people _ Hinv), Haw, Hnn. split.
  - apply (Array_sort_sorted (λ a, year (person a))).
    rewrite <-Hvs, Forall_fmap in Hyears. exact Hyears.
  - intros n.
    change (Array_sort by_year vs)
      with (Array_sort (by_key (λ a, year (person a))) vs).
    rewrite (Array_sort_by_key_stable (λ a, year (person a)) n vs).
    rewrite <-Hvs. clear. induction vs as [|v vs IH]; [done|].
    simpl. destruct (bool_decide (year (person v) = n)); simpl;
      by f_equal.
Qed.

End resolveAll_facts.

(** ** Colours *)

Lemma pretty_N_go_not_NaN (x : N) (s : string) :
  s ≠ "NaN" → pretty_N_go x s ≠ "NaN".
Proof.
  revert s. induction (N.lt_wf_0 x) as [x _ IH]. intros s Hs.
  destruct (decide (x = 0%N)) as [->|Hx]; [by rewrite pretty_N_go_0|].
  rewrite pretty_N_go_step by lia.
  apply IH; [apply N.div_lt; lia|].
  unfold pretty_N_char. repeat case_match; discriminate.
Qed.

Lemma pretty_Z_not_NaN (z : Z) : pretty z ≠ "NaN".
Proof.
  destruct z as [|x|x]; [done| |done].
  unfold pretty, pretty_Z, pretty, pretty_positive, pretty, pretty_N.
  rewrite decide_False by done. by apply pretty_N_go_not_NaN.
Qed.

(** Different years are different property keys. *)
Global Instance Number_toString_inj : Inj (=) (=) Number_toString.
Proof.
  intros [|x] [|y] H; simpl in H.
  - done.
  - by destruct (pretty_Z_not_NaN y).
  - by destruct (pretty_Z_not_NaN x).
  - f_equal. by apply (inj pretty).
Qed.

Lemma tailwindColorNames_length : length tailwindColorNames = 20.
Proof. reflexivity. Qed.

Lemma tailwindColorNames_NoDup : NoDup tailwindColorNames.
Proof. apply (bool_decide_unpack _). by vm_compute. Qed.

Lemma tailwindColorNames_lookup (i : nat) :
  i < 20 → tailwindColorNames !! i = Some (tailwindColorNames !!! i).
Proof. intros Hi. by apply list_lookup_lookup_total_lt. Qed.

Lemma tailwindColorNames_truthy (i : nat) :
  truthy (Some (tailwindColorNames
                  !!! (i mod length tailwindColorNames))) = true.
Proof.
  change (length tailwindColorNames) with 20.
  assert (i mod 20 < 20) as Hlt by (apply Nat.mod_upper_bound; lia).
  revert Hlt. generalize (i mod 20). intros n Hn.
  do 20 (destruct n as [|n]; [done|]). lia.
Qed.

(** The years in the order in which [forEach] meets them for the first
    time. *)
Definition see (seen : list number) (y : number) : list number :=
  if decide (y ∈ seen) then seen else seen ++ [y].

Definition first_seen_from (seen : list number)
    (l : list PersonWithLocation) : list number :=
  foldl (λ seen item, see seen (year (person item))) seen l.

Definition first_seen (l : list PersonWithLocation) : list number :=
  first_seen_from [] l.

Definition years (l : list PersonWithLocation) : list number :=
  (λ item, year (person item)) <$> l.

Lemma see_prefix (seen : list number) (y : number) :
  seen `prefix_of` see seen y.
Proof.
  unfold see. destruct (decide _); [done|]. by apply prefix_app_r.
Qed.

Lemma elem_of_see (seen : list number) (y z : number) :
  z ∈ see seen y ↔ z ∈ seen ∨ z = y.
Proof.
  unfold see. destruct (decide _) as [Hin|Hnot].
  - split; [by left|]. by intros [?| ->].
  - rewrite elem_of_app, list_elem_of_singleton. done.
Qed.

Lemma see_NoDup (seen : list number) (y : number) :
  NoDup seen → NoDup (see seen y).
Proof.
  intros Hnd. unfold see. destruct (decide _) as [Hin|Hnot]; [done|].
  apply NoDup_app. split; [done|]. split; [|apply NoDup_singleton].
  intros z Hz ->%list_elem_of_singleton. done.
Qed.

Lemma first_seen_from_prefix (seen : list number)
    (l : list PersonWithLocation) :
  seen `prefix_of` first_seen_from seen l.
Proof.
  revert seen. induction l as [|item l IH]; intros seen; [done|].
  simpl. etrans; [apply see_prefix|apply IH].
Qed.

Lemma elem_of_first_seen_from (seen : list number)
    (l : list PersonWithLocation) (z : number) :
  z ∈ first_seen_from seen l ↔ z ∈ seen ∨ z ∈ years l.
Proof.
  revert seen. induction l as [|item l IH]; intros seen; simpl.
  - unfold years. simpl. rewrite elem_of_nil. naive_solver.
  - rewrite IH, elem_of_see. unfold years. simpl.
    rewrite elem_of_cons. naive_solver.
Qed.

Lemma first_seen_from_NoDup (seen : list number)
    (l : list PersonWithLocation) :
  NoDup seen → NoDup (first_seen_from seen l).
Proof.
  revert seen. induction l as [|item l IH]; intros seen Hnd; [done|].
  simpl. by apply IH, see_NoDup.
Qed.

(** The number of years met is the number of distinct years. *)
Lemma first_seen_length (l : list PersonWithLocation) :
  length (first_seen l) = length (remove_dups (years l)).
Proof.
  apply Permutation_length, NoDup_Permutation.
  - apply first_seen_from_NoDup, NoDup_nil_2.
  - apply NoDup_remove_dups.
  - intros z. unfold first_seen.
    rewrite elem_of_first_seen_from, elem_of_remove_dups, elem_of_nil.
    naive_solver.
Qed.

(** What [forEach] maintains: [colorIndex] counts the years met, the
    [j]-th year met is bound to entry [j mod 20] of the palette, and no
    other year is bound. *)
Record colorMap_inv (seen : list number)
    (acc : gmap string string * nat) : Prop := {
  cm_NoDup : NoDup seen;
  cm_index : acc.2 = length seen;
  cm_bound : ∀ j y,
    seen !! j = Some y →
    acc.1 !! Number_toString y
    = Some (tailwindColorNames !!! (j mod length tailwindColorNames));
  cm_fresh : ∀ y, y ∉ seen → acc.1 !! Number_toString y = None
}.

Lemma colorMap_step_inv (seen : list number)
    (acc : gmap string string * nat) (item : PersonWithLocation) :
  colorMap_inv seen acc →
  colorMap_inv (see seen (year (person item))) (colorMap_step acc item).
Proof.
  intros [Hnd Hidx Hbound Hfresh]. destruct acc as [m idx].
  cbn [fst snd] in *. unfold colorMap_step, see.
  destruct (decide (year (person item) ∈ seen)) as [Hin|Hnot].
  - apply list_elem_of_lookup in Hin as [j Hj].
    rewrite (Hbound j _ Hj), tailwindColorNames_truthy. by split.
  - rewrite (Hfresh _ Hnot). cbn [truthy]. split; cbn [fst snd].
    + apply NoDup_app. split; [done|]. split; [|apply NoDup_singleton].
      by intros z Hz ->%list_elem_of_singleton.
    + rewrite length_app. cbn [length]. lia.
    + intros j y Hj. apply lookup_app_Some in Hj as [Hj|[Hge Hj]].
      * rewrite lookup_insert_ne; [by apply Hbound|].
        intros Heq%(inj Number_toString). apply Hnot. rewrite Heq.
        by eapply list_elem_of_lookup_2.
      * apply list_lookup_singleton_Some in Hj as [Hj <-].
        rewrite lookup_insert_eq. do 3 f_equal. lia.
    + intros y Hy. rewrite elem_of_app, list_elem_of_singleton in Hy.
      rewrite lookup_insert_ne;
        [apply Hfresh; intros Hin; apply Hy; by left|].
      intros Heq%(inj Number_toString). apply Hy. by right.
Qed.

Lemma colorMap_fold_inv (l : list PersonWithLocation)
    (seen : list number) (acc : gmap string string * nat) :
  colorMap_inv seen acc →
  colorMap_inv (first_seen_from seen l) (foldl colorMap_step acc l).
Proof.
  revert seen acc. induction l as [|item l IH]; intros seen acc H; [done|].
  simpl. by apply IH, colorMap_step_inv.
Qed.

Lemma colorMap_first_seen (l : list PersonWithLocation) :
  colorMap_inv (first_seen l) (foldl colorMap_step (∅, 0) l).
Proof.
  apply colorMap_fold_inv. split; simpl.
  - apply NoDup_nil_2.
  - done.
  - intros j y Hj. by rewrite lookup_nil in Hj.
  - intros y _. apply lookup_empty.
Qed.

Lemma color_of_first_seen (people : list PersonWithLocation)
    (p : PersonWithLocation) (j : nat) :
  first_seen people !! j = Some (year (person p)) →
  color_of people p = tailwindColorNames !! (j mod 20).
Proof.
  intros Hj. unfold color_of, colorMap.
  rewrite (cm_bound _ _ (colorMap_first_seen people) j _ Hj).
  symmetry. apply tailwindColorNames_lookup.
  apply Nat.mod_upper_bound. lia.
Qed.

(** C6: records of the same year get the same colour; a year met for the
    first time is bound to the palette entry whose index is the number of
    distinct years met before it, modulo the 20 entries of the palette;
    and when there are at most 20 distinct years, records of different
    years get different colours. *)
Theorem colorMap_colours (people : list PersonWithLocation) :
  (∀ p q, year (person p) = year (person q) →
     color_of people p = color_of people q)
  ∧ (∀ l1 p l2, people = l1 ++ p :: l2 →
       year (person p) ∉ years l1 →
       color_of people p
       = tailwindColorNames
           !! (length (remove_dups (years l1))
               mod length tailwindColorNames))
  ∧ length tailwindColorNames = 20
  ∧ (∀ p, p ∈ people → is_Some (color_of people p))
  ∧ (length (remove_dups (years people)) ≤ 20 →
     ∀ p q, p ∈ people → q ∈ people →
       year (person p) ≠ year (person q) →
       color_of people p ≠ color_of people q).
Proof.
  assert (∀ p, p ∈ people →
            ∃ j, first_seen people !! j = Some (year (person p)))
    as Hmet.
  { intros p Hp. apply list_elem_of_lookup. unfold first_seen.
    apply elem_of_first_seen_from. right. unfold years.
    apply list_elem_of_fmap. by exists p. }
  split_and!.
  - intros p q Hpq. unfold color_of. by rewrite Hpq.
  - intros l1 p l2 -> Hnew.
    rewrite <-first_seen_length. apply color_of_first_seen.
    unfold first_seen. rewrite <-(Nat.add_0_r (length _)).
    assert (first_seen_from [] (l1 ++ p :: l2)
            = first_seen_from (first_seen l1 ++ [year (person p)]) l2)
      as ->.
    { unfold first_seen_from at 1. rewrite foldl_app. simpl.
      fold (first_seen_from [] l1). fold (first_seen l1).
      unfold see. rewrite decide_False; [done|].
      unfold first_seen. rewrite elem_of_first_seen_from, elem_of_nil.
      tauto. }
    destruct (first_seen_from_prefix (first_seen l1 ++ [year (person p)])
                l2) as [k ->].
    fold (first_seen l1). rewrite <-(assoc_L (++)).
    by rewrite lookup_app_r, Nat.add_0_r, Nat.sub_diag by lia.
  - reflexivity.
  - intros p Hp. destruct (Hmet p Hp) as [j Hj].
    rewrite (color_of_first_seen people p j Hj).
    apply lookup_lt_is_Some_2. rewrite tailwindColorNames_length.
    apply Nat.mod_upper_bound. lia.
  - intros Hfew p q Hp Hq Hne.
    destruct (Hmet p Hp) as [jp Hjp]. destruct (Hmet q Hq) as [jq Hjq].
    rewrite (color_of_first_seen people p jp Hjp).
    rewrite (color_of_first_seen people q jq Hjq).
    rewrite <-first_seen_length in Hfew.
    pose proof (lookup_lt_Some _ _ _ Hjp) as Hlp.
    pose proof (lookup_lt_Some _ _ _ Hjq) as Hlq.
    rewrite !Nat.mod_small by lia. intros Heq.
    assert (jp = jq) as ->; [|congruence].
    destruct (lookup_lt_is_Some_2 tailwindColorNames jp) as [c Hc].
    { rewrite tailwindColorNames_length. lia. }
    eapply NoDup_lookup; [apply tailwindColorNames_NoDup|done|].
    by rewrite <-Heq.
Qed.

(** ** Year filter *)

(** C7: with the empty filter the list is returned as it is; with any
    other filter the result is the list of the records whose year is
    strictly equal to the Number the filter string denotes, in their
    order and with their multiplicity; a filter that denotes [NaN]
    selects nothing. *)
Theorem filteredPeople_filter (people : list PersonWithLocation) :
  filteredPeople people "" = people
  ∧ ∀ filteredYear, filteredYear ≠ "" →
      (∀ y, Number filteredYear = Num y →
         filteredPeople people filteredYear
         = filter (λ p, year (person p) = Num y) people)
      ∧ (Number filteredYear = NaN →
         filteredPeople people filteredYear = [])
      ∧ filteredPeople people filteredYear `sublist_of` people
      ∧ ∀ p, p ∈ filteredPeople people filteredYear ↔
             p ∈ people
             ∧ strict_eq (year (person p)) (Number filteredYear) = true.
Proof.
  split; [done|]. intros fy Hfy. unfold filteredPeople.
  rewrite bool_decide_eq_false_2 by done.
  split_and!.
  - intros y ->. induction people as [|p l IH]; [done|].
    cbn [List.filter]. rewrite filter_cons, <-IH.
    destruct (year (person p)) as [|z]; simpl.
    + done.
    + case_bool_decide; destruct (decide _); congruence.
  - intros ->. induction people as [|p l IH]; [done|].
    cbn [List.filter]. by destruct (year (person p)).
  - induction people as [|p l IH]; [done|].
    cbn [List.filter]. destruct (strict_eq _ _); by constructor.
  - intros p. rewrite !list_elem_of_In, filter_In. done.
Qed.

(** * Further properties of the component *)

(** ** Extraction *)

(** X1: the records of a table made of two parts are the records of the first
    part followed by the records of the second: rows are converted one by
    one and the order of the rows is kept. *)
Theorem foundPeople_concat (rows1 rows2 : list Row) :
  ∃ found1 found2,
    foundPeople rows1 = Some found1 ∧ foundPeople rows2 = Some found2 ∧
    foundPeople (rows1 ++ rows2) = Some (found1 ++ found2).
Proof.
  destruct (foundPeople_total rows1) as [found1 H1].
  destruct (foundPeople_total rows2) as [found2 H2].
  exists found1, found2. by rewrite foundPeople_app, H1, H2.
Qed.

(** The records and the rows with a residence correspond one to one. *)
Lemma foundPeople_rows (rows : list Row) :
  ∃ found,
    foundPeople rows = Some found ∧
    length found = length (filter (λ row, has_city row) rows) ∧
    (∀ row c, row ∈ rows → row !! "Bydliště" = Some c → c ≠ "" →
       ∃ p, p ∈ found ∧ toPerson row = Some p ∧ city p = strip_digits c) ∧
    (∀ p, p ∈ found →
       ∃ row c, row ∈ rows ∧ row !! "Bydliště" = Some c ∧ c ≠ "" ∧
         toPerson row = Some p ∧ city p = strip_digits c).
Proof.
  induction rows as [|row rows (found & Hfound & Hlen & Hall & Hfrom)].
  - exists []. split; [done|]. split; [done|]. split.
    + intros row c Hin. by apply elem_of_nil in Hin.
    + intros p Hin. by apply elem_of_nil in Hin.
  - rewrite foundPeople_cons, Hfound, filter_cons.
    destruct (has_city row) eqn:E.
    + destruct (toPerson_has_city row E) as (c & Hc & Hne & Hp).
      rewrite Hp. eexists. split; [done|]. split; [simpl; by rewrite Hlen|].
      split.
      * intros row' c' [->|Hin]%elem_of_cons Hc' Hne'.
        -- eexists. split; [apply elem_of_cons; by left|]. split; [done|].
           simpl. congruence.
        -- destruct (Hall row' c' Hin Hc' Hne') as (p & Hp' & ?).
           exists p. split; [apply elem_of_cons; by right|done].
      * intros p [->|Hin]%elem_of_cons.
        -- exists row, c. split; [apply elem_of_cons; by left|done].
        -- destruct (Hfrom p Hin) as (row' & c' & ? & ?).
           exists row', c'. split; [apply elem_of_cons; by right|done].
    + exists found. split; [done|]. split; [done|]. split.
      * intros row' c' [->|Hin]%elem_of_cons Hc' Hne'.
        -- assert (has_city row = true) as E'; [|congruence].
           apply truthy_Some. eauto.
        -- by apply Hall.
      * intros p Hin. destruct (Hfrom p Hin) as (row' & c' & ? & ?).
        exists row', c'. split; [apply elem_of_cons; by right|done].
Qed.

(** X2: no row with a residence is lost: there are as many records as rows
    whose residence cell is present and not empty, and each such row has
    its record in the output. *)
Theorem foundPeople_complete (rows : list Row) :
  ∃ found,
    foundPeople rows = Some found ∧
    length found = length (filter (λ row, has_city row) rows) ∧
    ∀ row c, row ∈ rows → row !! "Bydliště" = Some c → c ≠ "" →
      ∃ p, p ∈ found ∧ toPerson row = Some p ∧ city p = strip_digits c.
Proof.
  destruct (foundPeople_rows rows) as (found & Hfound & Hlen & Hall & _).
  by exists found.
Qed.

(** [s] holds a decimal digit. *)
Fixpoint has_digit (s : string) : bool :=
  match s with
  | EmptyString => false
  | String c s' => is_digit c || has_digit s'
  end.

Lemma strip_digits_no_digit (s : string) : has_digit (strip_digits s) = false.
Proof.
  induction s as [|c s IH]; [done|]. simpl.
  destruct (is_digit c) eqn:E; [done|]. simpl. by rewrite E.
Qed.

Lemma strip_digits_id (s : string) :
  has_digit s = false → strip_digits s = s.
Proof.
  induction s as [|c s IH]; [done|]. simpl.
  destruct (is_digit c); [done|]. simpl. intros H. by rewrite IH.
Qed.

(** X3: no digit is left in the city of any record, whatever the rows are, and
    a residence without digits is taken as it is. *)
Theorem foundPeople_city_no_digit (rows : list Row) :
  ∃ found,
    foundPeople rows = Some found ∧
    (∀ p, p ∈ found → has_digit (city p) = false) ∧
    (∀ row c, row ∈ rows → row !! "Bydliště" = Some c → c ≠ "" →
       has_digit c = false → ∃ p, p ∈ found ∧ city p = c).
Proof.
  destruct (foundPeople_rows rows) as (found & Hfound & _ & Hall & Hfrom).
  exists found. split; [done|]. split.
  - intros p Hp. destruct (Hfrom p Hp) as (row & c & _ & _ & _ & _ & ->).
    apply strip_digits_no_digit.
  - intros row c Hin Hc Hne Hnd.
    destruct (Hall row c Hin Hc Hne) as (p & Hp & _ & Hcp).
    exists p. split; [done|]. by rewrite Hcp, strip_digits_id.
Qed.

(** ** The orchestrator *)

Lemma not_null_filter (l : list PersonWithLocation) :
  List.filter not_null l = l.
Proof. induction l; simpl; by f_equal. Qed.

Lemma settle_no_record (found : list Person) (responses : nat → Response)
    (i : nat) (run : Run) :
  found !! i = None → settle found responses i run = run.
Proof. unfold settle. by intros ->. Qed.

Lemma resolveAll_nil (responses : nat → Response) (arrivals : list nat)
    (st0 : State) (k : nat) :
  resolveAll [] responses arrivals st0 k = fan_out [] st0 k.
Proof.
  unfold resolveAll. generalize (fan_out [] st0 k). intros run.
  induction arrivals as [|i arrivals IH]; [done|].
  simpl. by rewrite settle_no_record.
Qed.

(** With no record to look up, [Promise.all] is fulfilled at once: the list
    of people becomes empty and the loading flag is cleared, before any
    response and whatever arrives later. *)
Theorem resolveAll_no_record (responses : nat → Response)
    (arrivals : list nat) (st0 : State) (k : nat) :
  people (ui (resolveAll [] responses arrivals st0 k)) = []
  ∧ isLoading (ui (resolveAll [] responses arrivals st0 k)) = false
  ∧ totalPeople (ui (resolveAll [] responses arrivals st0 k)) = 0
  ∧ processedPeople (ui (resolveAll [] responses arrivals st0 k)) = 0
  ∧ awaited (resolveAll [] responses arrivals st0 k) = Fulfilled []
  ∧ random_calls (resolveAll [] responses arrivals st0 k) = k.
Proof.
  by rewrite resolveAll_nil.
Qed.

(** X6: a sheet in which no row has a residence empties the list of people;
    no lookup is started and [Math.random] is not called. *)
Theorem processFile_no_city (rows : list Row) (responses : nat → Response)
    (arrivals : list nat) (st0 : State) (k : nat) :
  Forall (λ row, has_city row = false) rows →
  ∃ run,
    processFile rows responses arrivals st0 k = Some run ∧
    people (ui run) = [] ∧ isLoading (ui run) = false ∧
    totalPeople (ui run) = 0 ∧
    lookups run = [] ∧ random_calls run = k.
Proof.
  intros Hrows. unfold processFile.
  assert (foundPeople rows = Some []) as ->.
  { induction Hrows as [|row rows Hrow _ IH]; [done|].
    by rewrite foundPeople_cons, Hrow. }
  eexists. split; [done|]. by rewrite resolveAll_nil.
Qed.

Lemma resolveAll_snoc (found : list Person) (responses : nat → Response)
    (arrivals : list nat) (i : nat) (st0 : State) (k : nat) :
  resolveAll found responses (arrivals ++ [i]) st0 k
  = settle found responses i (resolveAll found responses arrivals st0 k).
Proof. unfold resolveAll. by rewrite foldl_app. Qed.

(** A lookup whose response has not arrived is pending. *)
Lemma resolveAll_pending (found : list Person) (responses : nat → Response)
    (arrivals : list nat) (st0 : State) (k i : nat) :
  i < length found → i ∉ arrivals →
  lookups (resolveAll found responses arrivals st0 k) !! i = Some Pending.
Proof.
  intros Hi. induction arrivals as [|j arrivals IH] using rev_ind; intros Hni.
  - unfold resolveAll, fan_out. simpl. rewrite resume_lookups. simpl.
    by apply lookup_replicate_2.
  - rewrite resolveAll_snoc, lookups_settle.
    rewrite elem_of_app, list_elem_of_singleton in Hni.
    destruct (found !! j); [|apply IH; tauto].
    destruct (lookups _ !! j) as [[|v|]|]; try (apply IH; tauto).
    rewrite list_lookup_insert_ne by (intros ->; tauto). apply IH; tauto.
Qed.

(** The first candidate of a response, if any. *)
Definition first_feature (response : Response) : option Feature :=
  match response with
  | Data features => features ≫= head
  | LookupFailure => None
  end.

Lemma fetchCityLocation_first_feature (response : Response) (p : Person)
    (st : State) (k : nat) (v : PersonWithLocation) :
  (fetchCityLocation response p st k).1.1 = Some v →
  person v = p ∧
  location v
  = (λ f, (addRandomOffset {| lat := (coordinates f).2;
                              lng := (coordinates f).1 |} k).1)
    <$> first_feature response.
Proof.
  destruct response as [|features]; simpl; [done|].
  destruct (features ≫= head); simpl; by intros [= <-].
Qed.

(** The values [Promise.all] is fulfilled with, in a run in which every
    lookup is answered: one per record, in the order of the records. *)
Lemma resolveAll_assigned (found : list Person) (responses : nat → Response)
    (arrivals : list nat) (st0 : State) (k : nat) :
  (∀ i, i < length found → responses i ≠ LookupFailure) →
  (∀ i, i < length found → i ∈ arrivals) →
  ∃ assignedPeople,
    awaited (resolveAll found responses arrivals st0 k)
      = Fulfilled assignedPeople ∧
    people (ui (resolveAll found responses arrivals st0 k))
      = Array_sort by_year assignedPeople ∧
    length assignedPeople = length found ∧
    ∀ i v, assignedPeople !! i = Some v →
      found !! i = Some (person v) ∧
      ∃ k', location v
            = (λ f, (addRandomOffset {| lat := (coordinates f).2;
                                        lng := (coordinates f).1 |} k').1)
              <$> first_feature (responses i).
Proof.
  intros Hdata Hall.
  destruct (resolveAll_success found responses st0 arrivals k Hdata Hall)
    as (vs & Haw & Hl & Hvs).
  pose proof (resolveAll_inv found responses st0 arrivals k) as Hinv.
  exists vs. split; [done|]. split.
  { by rewrite (inv_people _ _ _ _ Hinv), Haw, not_null_filter. }
  split; [by rewrite <-Hvs, length_fmap|].
  intros i v Hv.
  destruct (inv_fulfilled _ _ _ _ Hinv i v) as (p & st & k' & Hp & Hf).
  { by rewrite Hl, list_lookup_fmap, Hv. }
  apply fetchCityLocation_first_feature in Hf as [-> Hloc]. eauto.
Qed.

Lemma addRandomOffset_bound (location : LatLng) (k : nat) :
  (abs (lat location) <=? 180)%float = true →
  (abs (lng location) <=? 180)%float = true →
  (0 <=? Math_random k)%float = true →
  (Math_random k <? 1)%float = true →
  (0 <=? Math_random (S k))%float = true →
  (Math_random (S k) <? 1)%float = true →
  (Number_isFinite (lat (addRandomOffset location k).1) = true
   ∧ (Qabs (value (lat (addRandomOffset location k).1)
            - value (lat location))
      <= 0.0025 + 2 ^ (-45))%Q)
  ∧ (Number_isFinite (lng (addRandomOffset location k).1) = true
     ∧ (Qabs (value (lng (addRandomOffset location k).1)
              - value (lng location))
        <= 0.0025 + 2 ^ (-45))%Q).
Proof.
  intros Hlat Hlng Ha0 Ha1 Hb0 Hb1. unfold addRandomOffset. cbn [fst lat lng].
  split; apply offset_within; assumption.
Qed.

(** X8: end to end, on doubles: when the draws of [Math.random] lie in
    [[0, 1)], the coordinates of the candidates have a magnitude of at most
    180 and every lookup is answered, the value resolved for record [i] is
    that record, without a location when its response has no candidate, and
    otherwise with a location of finite coordinates within
    [0.0025 + 2 ^ (-45)] of the first candidate's latitude (second
    coordinate) and longitude (first coordinate); the list shown is a
    rearrangement of these values. *)
Theorem resolveAll_locations (found : list Person)
    (responses : nat → Response) (arrivals : list nat) (st0 : State)
    (k : nat) :
  (∀ n, (0 <=? Math_random n)%float = true
        ∧ (Math_random n <? 1)%float = true) →
  (∀ i f, first_feature (responses i) = Some f →
     (abs (coordinates f).1 <=? 180)%float = true
     ∧ (abs (coordinates f).2 <=? 180)%float = true) →
  (∀ i, i < length found → responses i ≠ LookupFailure) →
  (∀ i, i < length found → i ∈ arrivals) →
  ∃ assignedPeople,
    people (ui (resolveAll found responses arrivals st0 k))
      ≡ₚ assignedPeople ∧
    length assignedPeople = length found ∧
    ∀ i v, assignedPeople !! i = Some v →
      found !! i = Some (person v) ∧
      match first_feature (responses i) with
      | Some f =>
          ∃ loc, location v = Some loc ∧
            (Number_isFinite (lat loc) = true
             ∧ (Qabs (value (lat loc) - value (coordinates f).2)
                <= 0.0025 + 2 ^ (-45))%Q) ∧
            (Number_isFinite (lng loc) = true
             ∧ (Qabs (value (lng loc) - value (coordinates f).1)
                <= 0.0025 + 2 ^ (-45))%Q)
      | None => location v = None
      end.
Proof.
  intros Hrandom Hgeo Hdata Hall.
  destruct (resolveAll_assigned found responses arrivals st0 k Hdata Hall)
    as (vs & _ & Hpeople & Hlen & Hvs).
  exists vs. split; [rewrite Hpeople; apply Array_sort_Permutation|].
  split; [done|]. intros i v Hv.
  destruct (Hvs i v Hv) as (Hp & k' & Hloc). split; [done|].
  rewrite Hloc. destruct (first_feature (responses i)) as [f|] eqn:Hf; [|done].
  destruct (Hgeo i f Hf) as [Hlng Hlat].
  eexists. split; [done|].
  apply (addRandomOffset_bound
           {| lat := (coordinates f).2; lng := (coordinates f).1 |} k');
    first [assumption | apply Hrandom].
Qed.

(** X9: the order in which the responses arrive changes nothing but the
    jitter: two runs on the same records with the same responses show the
    same records in the same order, with a location for the same ones. *)
Theorem resolveAll_arrival_order (found : list Person)
    (responses : nat → Response) (arrivals1 arrivals2 : list nat)
    (st1 st2 : State) (k1 k2 : nat) :
  (∀ i, i < length found → responses i ≠ LookupFailure) →
  (∀ i, i < length found → i ∈ arrivals1) →
  (∀ i, i < length found → i ∈ arrivals2) →
  (λ a, (person a, bool_decide (is_Some (location a))))
    <$> people (ui (resolveAll found responses arrivals1 st1 k1))
  = (λ a, (person a, bool_decide (is_Some (location a))))
    <$> people (ui (resolveAll found responses arrivals2 st2 k2)).
Proof.
  intros Hdata Hall1 Hall2.
  destruct (resolveAll_assigned found responses arrivals1 st1 k1 Hdata Hall1)
    as (vs1 & _ & -> & Hlen1 & Hvs1).
  destruct (resolveAll_assigned found responses arrivals2 st2 k2 Hdata Hall2)
    as (vs2 & _ & -> & Hlen2 & Hvs2).
  set (g := λ a : PersonWithLocation,
              (person a, bool_decide (is_Some (location a)))).
  pose proof (Array_sort_map (λ x : Person * bool, year x.1) g) as Hmap.
  unfold by_key in Hmap. simpl in Hmap.
  unfold by_year. rewrite !Hmap. f_equal.
  apply list_eq. intros i. rewrite !list_lookup_fmap.
  destruct (vs1 !! i) as [v1|] eqn:E1, (vs2 !! i) as [v2|] eqn:E2; simpl.
  - destruct (Hvs1 i v1 E1) as (Hp1 & k1' & Hl1).
    destruct (Hvs2 i v2 E2) as (Hp2 & k2' & Hl2).
    unfold g. f_equal. f_equal; [congruence|].
    rewrite Hl1, Hl2. by destruct (first_feature (responses i)).
  - apply lookup_lt_Some in E1. apply lookup_ge_None in E2. lia.
  - apply lookup_lt_Some in E2. apply lookup_ge_None in E1. lia.
  - done.
Qed.

(** A failed lookup whose response has arrived is rejected. *)
Lemma resolveAll_rejected (found : list Person) (responses : nat → Response)
    (arrivals : list nat) (st0 : State) (k i : nat) :
  i < length found →
  (lookups (resolveAll found responses arrivals st0 k) !! i = Some Rejected
   ↔ i ∈ arrivals ∧ responses i = LookupFailure).
Proof.
  intros Hi.
  pose proof (resolveAll_inv found responses st0 arrivals k) as Hinv.
  split.
  - intros Hr. split; [|by apply (inv_rejected _ _ _ _ Hinv)].
    destruct (decide (i ∈ arrivals)) as [|Hni]; [done|].
    by rewrite (resolveAll_pending found responses arrivals st0 k i Hi Hni)
      in Hr.
  - intros [Hin Hfail].
    destruct (resolveAll_settled found responses st0 arrivals k i Hin Hi)
      as ([|v|] & Hx & Hne); [done| |done].
    destruct (inv_fulfilled _ _ _ _ Hinv i v Hx) as (p & st & k' & _ & H).
    by rewrite Hfail in H.
Qed.

(** X5: the loading flag is set while the run is undecided: it is cleared as
    soon as a failed response has arrived, or every response has arrived,
    and not before.  The year filter is not touched by a run. *)
Theorem resolveAll_isLoading (found : list Person)
    (responses : nat → Response) (arrivals : list nat) (st0 : State)
    (k : nat) :
  (isLoading (ui (resolveAll found responses arrivals st0 k)) = false
   ↔ (∃ j, j < length found ∧ j ∈ arrivals ∧ responses j = LookupFailure)
     ∨ (∀ i, i < length found → i ∈ arrivals))
  ∧ filteredYear (ui (resolveAll found responses arrivals st0 k))
    = filteredYear st0.
Proof.
  pose proof (resolveAll_inv found responses st0 arrivals k) as Hinv.
  pose proof (λ i, resolveAll_rejected found responses arrivals st0 k i)
    as Hrej.
  pose proof (λ i, resolveAll_pending found responses arrivals st0 k i)
    as Hpend.
  pose proof (λ i, resolveAll_settled found responses st0 arrivals k i)
    as Hset.
  set (run := resolveAll found responses arrivals st0 k) in *.
  split; [|apply Hinv].
  rewrite (inv_loading _ _ _ _ Hinv), (inv_awaited _ _ _ _ Hinv).
  pose proof (inv_length _ _ _ _ Hinv) as Hlen.
  destruct (Promise_all (lookups run)) as [|vs|] eqn:E.
  - split; [done|]. intros [(j & Hj & Hin & Hfail)|Hall]; exfalso.
    + assert (Promise_all (lookups run) = Rejected) as E'; [|congruence].
      apply Promise_all_Rejected, list_elem_of_lookup. exists j.
      by apply Hrej.
    + unfold Promise_all in E.
      destruct (existsb is_rejected (lookups run)) eqn:Ex; [done|].
      destruct (mapM fulfilled_value (lookups run)) eqn:Em; [done|].
      apply mapM_None in Em. apply Exists_exists in Em as (x & Hx & Hnone).
      apply list_elem_of_lookup in Hx as [i Hi].
      assert (i < length found) as Hlt.
      { rewrite <-Hlen. by eapply lookup_lt_Some. }
      destruct (Hset i (Hall i Hlt) Hlt) as (x' & Hx' & Hne).
      assert (x' = x) as -> by congruence.
      destruct x as [|v|]; [done|done|].
      assert (existsb is_rejected (lookups run) = true) as Ex';
        [|congruence].
      apply existsb_exists. exists Rejected. split; [|done].
      apply list_elem_of_In, list_elem_of_lookup. eauto.
  - split; [intros _|done]. right. intros i Hi.
    apply Promise_all_Fulfilled in E.
    destruct (decide (i ∈ arrivals)) as [|Hni]; [done|].
    pose proof (Hpend i Hi Hni) as Hp.
    rewrite E, list_lookup_fmap in Hp. by destruct (vs !! i).
  - split; [intros _|done]. left.
    apply Promise_all_Rejected, list_elem_of_lookup in E as [j Hj].
    assert (j < length found) as Hlt.
    { rewrite <-Hlen. by eapply lookup_lt_Some. }
    exists j. split; [done|]. by apply Hrej.
Qed.

(** ** Colours and the year selector *)

Lemma colorMap_fold_dom (l : list PersonWithLocation)
    (acc : gmap string string * nat) :
  (∀ key c, acc.1 !! key = Some c → c ≠ "") →
  dom (foldl colorMap_step acc l).1
  = dom acc.1 ∪ list_to_set (Number_toString <$> years l).
Proof.
  forget_host.
  revert acc. induction l as [|item l IH]; intros [m idx] Hm.
  - simpl. set_solver.
  - cbn [foldl]. unfold colorMap_step at 2. cbn [fst] in Hm.
    destruct (truthy (m !! Number_toString (year (person item)))) eqn:E.
    + rewrite IH by done. cbn [fst]. unfold years. rewrite fmap_cons.
      cbn [fmap list_fmap]. rewrite list_to_set_cons.
      apply truthy_Some in E as (c & Hc & _).
      assert (Number_toString (year (person item)) ∈ dom m)
        by (apply elem_of_dom; eauto).
      set_solver.
    + rewrite IH.
      * cbn [fst]. rewrite dom_insert_L. unfold years.
        rewrite fmap_cons. cbn [fmap list_fmap]. rewrite list_to_set_cons.
        set_solver.
      * cbn [fst]. intros key c.
        destruct (decide (Number_toString (year (person item)) = key))
          as [<-|Hne].
        -- rewrite lookup_insert_eq. intros Hsome ->.
           pose proof (tailwindColorNames_truthy idx) as Ht.
           by rewrite Hsome in Ht.
        -- rewrite lookup_insert_ne by done. apply Hm.
Qed.

Lemma colorMap_dom (people : list PersonWithLocation) :
  dom (colorMap people) = list_to_set (Number_toString <$> years people).
Proof.
  unfold colorMap. rewrite colorMap_fold_dom.
  - cbn [fst]. rewrite dom_empty_L. by rewrite (left_id_L ∅ (∪)).
  - intros key c. cbn [fst]. by rewrite lookup_empty.
Qed.

(** X10: the keys of [colorMap], from which the options of the year selector
    are made, are the strings of the years of the people, one per distinct
    year. *)
Theorem colorMap_keys (people : list PersonWithLocation) :
  dom (colorMap people) = list_to_set (Number_toString <$> years people)
  ∧ size (dom (colorMap people)) = length (remove_dups (years people)).
Proof.
  forget_host.
  pose proof (colorMap_dom people) as Hdom.
  split; [done|]. rewrite Hdom, <-first_seen_length.
  assert (list_to_set (Number_toString <$> years people)
          =@{gset string} list_to_set (Number_toString <$> first_seen people))
    as ->.
  { apply set_eq. intros s. rewrite !elem_of_list_to_set.
    rewrite !list_elem_of_fmap. unfold first_seen.
    setoid_rewrite elem_of_first_seen_from. setoid_rewrite elem_of_nil.
    naive_solver. }
  rewrite size_list_to_set, length_fmap; [done|].
  apply NoDup_fmap_2; [apply _|].
  apply first_seen_from_NoDup, NoDup_nil_2.
Qed.

(** X11: the palette has 20 entries: as soon as there are more than 20 distinct
    years, two records of different years have the same colour. *)
Theorem colorMap_collision (people : list PersonWithLocation) :
  20 < length (remove_dups (years people)) →
  ∃ p q, p ∈ people ∧ q ∈ people ∧
    year (person p) ≠ year (person q) ∧
    color_of people p = color_of people q.
Proof.
  rewrite <-first_seen_length. intros Hlen.
  destruct (lookup_lt_is_Some_2 (first_seen people) 0) as [y0 H0]; [lia|].
  destruct (lookup_lt_is_Some_2 (first_seen people) 20) as [y20 H20];
    [lia|].
  assert (∀ j y, first_seen people !! j = Some y →
            ∃ p, p ∈ people ∧ year (person p) = y) as Hrecord.
  { intros j y Hj. apply list_elem_of_lookup_2 in Hj. unfold first_seen in Hj.
    apply elem_of_first_seen_from in Hj as [Hj|Hj];
      [by apply elem_of_nil in Hj|].
    unfold years in Hj. apply list_elem_of_fmap in Hj as (p & -> & Hp).
    eauto. }
  destruct (Hrecord 0 y0 H0) as (p & Hp & Hyp).
  destruct (Hrecord 20 y20 H20) as (q & Hq & Hyq).
  exists p, q. split; [done|]. split; [done|]. split.
  - rewrite Hyp, Hyq. intros ->.
    assert (0 = 20); [|lia].
    eapply NoDup_lookup; [|exact H0|exact H20].
    apply first_seen_from_NoDup, NoDup_nil_2.
  - rewrite <-Hyp in H0. rewrite <-Hyq in H20.
    by rewrite (color_of_first_seen people p 0 H0),
      (color_of_first_seen people q 20 H20).
Qed.

(** [a < b] on Numbers; [NaN] is below and above nothing. *)
Definition number_lt (a b : number) : Prop :=
  match a, b with
  | Num x, Num y => (x < y)%Z
  | _, _ => False
  end.

Global Instance number_lt_dec (a b : number) : Decision (number_lt a b).
Proof. destruct a, b; simpl; apply _. Defined.

(** On a list in ascending order of year the years are met in ascending
    order. *)
Lemma first_seen_from_sorted (seen : list number)
    (l : list PersonWithLocation) :
  StronglySorted number_lt seen →
  StronglySorted (key_le (λ a, year (person a))) l →
  Forall (λ a, year (person a) ≠ NaN) l →
  (∀ y a, y ∈ seen → a ∈ l → number_le y (year (person a))) →
  StronglySorted number_lt (first_seen_from seen l).
Proof.
  revert seen. induction l as [|item l IH]; intros seen Hseen Hl Hv Hle;
    [done|].
  apply StronglySorted_cons in Hl as [Hitem Hl].
  apply Forall_cons in Hv as [Hvi Hv].
  simpl. apply IH; [|done..|].
  - unfold see. destruct (decide _) as [Hin|Hnot]; [done|].
    apply StronglySorted_app_2; [|done|repeat constructor].
    intros y ? Hy ->%list_elem_of_singleton.
    pose proof (Hle y item Hy (list_elem_of_here _ _)) as Hyi.
    assert (y ≠ year (person item)) as Hne by (by intros ->).
    destruct y as [|y], (year (person item)) as [|z]; simpl in *;
      try done.
    assert (y ≠ z) by congruence. lia.
  - intros y a [Hy| ->]%elem_of_see Ha.
    + apply Hle; [done|]. by apply list_elem_of_further.
    + rewrite Forall_forall in Hitem. apply (Hitem a Ha).
Qed.

Lemma sorted_filter_take (ys : list number) (j : nat) (y : number) :
  StronglySorted number_lt ys → ys !! j = Some y →
  filter (λ z, number_lt z y) ys = take j ys.
Proof.
  intros Hs. revert j. induction Hs as [|z ys Hs IH Hz]; intros j Hj;
    [done|].
  destruct j as [|j]; simpl in Hj.
  - injection Hj as ->. simpl. rewrite filter_cons_False.
    + clear IH Hs. induction Hz as [|w ys Hw _ IH]; [done|].
      rewrite filter_cons_False; [done|].
      destruct y, w; simpl in *; try done. lia.
    + destruct y; simpl; [tauto|lia].
  - rewrite Forall_forall in Hz.
    rewrite filter_cons_True
      by (apply Hz; by eapply list_elem_of_lookup_2).
    simpl. f_equal. by apply IH.
Qed.

(** X12: on a list in ascending order of valid years, which is what a run
    leaves in [people], the colours follow the years: a record's colour is
    the palette entry whose index is the number of distinct smaller years,
    modulo 20; the earliest year has the first colour. *)
Theorem colorMap_chronological (people : list PersonWithLocation) :
  Forall (λ a, year (person a) ≠ NaN) people →
  StronglySorted (key_le (λ a, year (person a))) people →
  ∀ p, p ∈ people →
    color_of people p
    = tailwindColorNames
        !! (length (filter (λ y, number_lt y (year (person p)))
                      (remove_dups (years people))) mod 20).
Proof.
  forget_host.
  intros Hvalid Hsorted p Hp.
  assert (StronglySorted number_lt (first_seen people)) as Hs.
  { apply first_seen_from_sorted; [constructor|done..|].
    intros y a Hy. by apply elem_of_nil in Hy. }
  assert (∃ j, first_seen people !! j = Some (year (person p))) as [j Hj].
  { apply list_elem_of_lookup. unfold first_seen.
    apply elem_of_first_seen_from. right. unfold years.
    apply list_elem_of_fmap. by exists p. }
  rewrite (color_of_first_seen people p j Hj). do 2 f_equal.
  transitivity
    (length (filter (λ y, number_lt y (year (person p)))
               (first_seen people))).
  - rewrite (sorted_filter_take _ j _ Hs Hj), length_take_le; [done|].
    apply lookup_lt_Some in Hj. lia.
  - apply Permutation_length, NoDup_Permutation.
    + apply NoDup_filter, first_seen_from_NoDup, NoDup_nil_2.
    + apply NoDup_filter, NoDup_remove_dups.
    + intros y. rewrite !list_elem_of_filter, elem_of_remove_dups.
      unfold first_seen. rewrite elem_of_first_seen_from, elem_of_nil.
      tauto.
Qed.

(** ** The year filter and the selector *)

Lemma pretty_N_go_not_empty (x : N) (s : string) :
  s ≠ "" → pretty_N_go x s ≠ "".
Proof.
  revert s. induction (N.lt_wf_0 x) as [x _ IH]. intros s Hs.
  destruct (decide (x = 0%N)) as [->|Hx]; [by rewrite pretty_N_go_0|].
  rewrite pretty_N_go_step by lia. apply IH; [apply N.div_lt; lia|done].
Qed.

Lemma Number_toString_not_empty (n : number) : Number_toString n ≠ "".
Proof.
  destruct n as [|[|x|x]]; try done.
  unfold Number_toString, pretty, pretty_Z, pretty, pretty_positive, pretty,
    pretty_N.
  rewrite decide_False by done. rewrite pretty_N_go_step by lia.
  by apply pretty_N_go_not_empty.
Qed.

Lemma filteredPeople_Num (people : list PersonWithLocation)
    (filteredYear : string) (y : Z) :
  filteredYear ≠ "" → Number filteredYear = Num y →
  filteredPeople people filteredYear
  = filter (λ p, year (person p) = Num y) people.
Proof.
  intros Hne Hy. unfold filteredPeople.
  rewrite bool_decide_eq_false_2, Hy by done.
  induction people as [|p l IH]; [done|].
  cbn [List.filter]. rewrite filter_cons, <-IH.
  destruct (year (person p)) as [|z]; simpl; [done|].
  case_bool_decide; destruct (decide _); congruence.
Qed.

Lemma filteredPeople_NaN (people : list PersonWithLocation)
    (filteredYear : string) :
  filteredYear ≠ "" → Number filteredYear = NaN →
  filteredPeople people filteredYear = [].
Proof.
  intros Hne Hy. unfold filteredPeople.
  rewrite bool_decide_eq_false_2, Hy by done.
  induction people as [|p l IH]; [done|].
  cbn [List.filter]. by destruct (year (person p)).
Qed.

(** X13: choosing the option of a year in the selector, on a host where
    [Number] reads back the string of that year, shows the records of that
    year and only them, in their order; there is at least one when the year
    is a year of the list. *)
Theorem filteredPeople_year_option (people : list PersonWithLocation)
    (z : Z) :
  Number (Number_toString (Num z)) = Num z →
  filteredPeople people (Number_toString (Num z))
    = filter (λ p, year (person p) = Num z) people
  ∧ (Num z ∈ years people →
     filteredPeople people (Number_toString (Num z)) ≠ []).
Proof.
  intros Hround.
  rewrite (filteredPeople_Num people _ z
             (Number_toString_not_empty (Num z)) Hround).
  split; [done|].
  unfold years. intros (p & Hy & Hp)%list_elem_of_fmap Hnil.
  assert (p ∈ filter (λ p, year (person p) = Num z) people) as Hin.
  { by apply list_elem_of_filter. }
  rewrite Hnil in Hin. by apply elem_of_nil in Hin.
Qed.

(** X14: a record with an unparsable date puts the option "NaN" in the
    selector, and choosing it shows no record at all: no year is strictly
    equal to [NaN]. *)
Theorem filteredPeople_NaN_option (people : list PersonWithLocation) :
  Number "NaN" = NaN →
  ("NaN" ∈ dom (colorMap people) ↔ NaN ∈ years people)
  ∧ filteredPeople people "NaN" = [].
Proof.
  intros HNaN. split.
  - rewrite colorMap_dom, elem_of_list_to_set, list_elem_of_fmap. split.
    + intros (y & Hy & Hin).
      by rewrite (inj Number_toString NaN y Hy).
    + intros Hin. by exists NaN.
  - by apply filteredPeople_NaN.
Qed.

(** ** What is rendered: the list and the markers *)

(** The React key of the entry at [index]:
    [index + person.name + person.year]. *)
Definition entry_key (index : nat) (p : PersonWithLocation) : string :=
  pretty index +:+ name (person p) +:+ Number_toString (year (person p)).

(** An [<li>] of the list: its key, its colour class [colorMap[person.year]]
    and the person it shows. *)
Record ListItem := {
  item_key : string;
  item_color : option string;
  item_person : PersonWithLocation
}.

(** A [<Marker>]: its key, the colour class of its icon, its position and
    the person its popup shows. *)
Record MarkerProps := {
  marker_key : string;
  marker_color : option string;
  marker_position : LatLng;
  marker_person : PersonWithLocation
}.

(** [filteredPeople.map((person, index) => <li ...>)] *)
Definition list_items (people : list PersonWithLocation)
    (filteredYear : string) : list ListItem :=
  imap (λ index p, {| item_key := entry_key index p;
                      item_color := color_of people p;
                      item_person := p |})
       (filteredPeople people filteredYear).

(** [filteredPeople.map((person, index) => person.location ? <Marker ...>
    : null)] *)
Definition markers (people : list PersonWithLocation)
    (filteredYear : string) : list (option MarkerProps) :=
  imap (λ index p,
          match location p with
          | Some position =>
              Some {| marker_key := entry_key index p;
                      marker_color := color_of people p;
                      marker_position := position;
                      marker_person := p |}
          | None => None
          end)
       (filteredPeople people filteredYear).

(** React renders nothing for [null]. *)
Definition rendered_markers (people : list PersonWithLocation)
    (filteredYear : string) : list MarkerProps :=
  omap id (markers people filteredYear).

(** [onClick] of a list entry: the [setView(position, zoom)] sent to the
    map, if any. *)
Definition onClick (p : PersonWithLocation) (map_ready : bool)
    : option (LatLng * nat) :=
  match location p with
  | Some position => if map_ready then Some (position, 14) else None
  | None => None
  end.

Lemma omap_imap_filter {A B} (f : nat → A → option B) (g : B → A)
    (P : A → bool) (l : list A) :
  (∀ i a, g <$> f i a = if P a then Some a else None) →
  g <$> omap id (imap f l) = List.filter P l.
Proof.
  revert f. induction l as [|a l IH]; intros f Hf; [done|].
  cbn [imap omap List.filter]. specialize (Hf 0 a) as Hfa.
  specialize (IH (f ∘ S) (λ i, Hf (S i))).
  unfold id at 1. destruct (f 0 a) as [b|], (P a); simplify_eq/=.
  - f_equal. exact IH.
  - exact IH.
Qed.

(** X15: every selected person has an entry in the list, in order; the markers
    are those of the selected persons that have a location, in order; and
    a marker stands at the location of its person, with the colour and the
    key of that person's list entry. *)
Theorem markers_located (people : list PersonWithLocation)
    (filteredYear : string) :
  item_person <$> list_items people filteredYear
    = filteredPeople people filteredYear
  ∧ marker_person <$> rendered_markers people filteredYear
    = List.filter (λ p, bool_decide (is_Some (location p)))
        (filteredPeople people filteredYear)
  ∧ ∀ m, m ∈ rendered_markers people filteredYear →
      location (marker_person m) = Some (marker_position m) ∧
      ∃ index item,
        list_items people filteredYear !! index = Some item ∧
        item_person item = marker_person m ∧
        item_key item = marker_key m ∧
        item_color item = marker_color m.
Proof.
  unfold list_items, rendered_markers, markers.
  generalize (filteredPeople people filteredYear). intros l.
  split_and!.
  - apply list_eq. intros i. rewrite list_lookup_fmap, list_lookup_imap.
    by destruct (l !! i).
  - apply omap_imap_filter. intros i a. by destruct (location a).
  - intros m Hm. apply list_elem_of_omap in Hm as (om & Hom & Hid).
    unfold id in Hid. subst om.
    apply list_elem_of_lookup in Hom as [i Hi].
    rewrite list_lookup_imap in Hi.
    destruct (l !! i) as [p|] eqn:Hp; [|done]. simpl in Hi.
    destruct (location p) as [position|] eqn:Hloc; [|done].
    injection Hi as <-. simpl. split; [done|].
    eexists i, _. rewrite list_lookup_imap, Hp. simpl. done.
Qed.

(** X16: clicking a list entry sends the map to the marker of that entry, at
    zoom 14; it does nothing for an entry without a marker, or while the
    map is not there. *)
Theorem onClick_marker (people : list PersonWithLocation)
    (filteredYear : string) :
  (∀ m, m ∈ rendered_markers people filteredYear →
     onClick (marker_person m) true = Some (marker_position m, 14))
  ∧ (∀ p, p ∈ filteredPeople people filteredYear →
       onClick p false = None ∧
       (onClick p true = None ↔
        p ∉ marker_person <$> rendered_markers people filteredYear)).
Proof.
  forget_host.
  assert (∀ p, p ∈ marker_person <$> rendered_markers people filteredYear
               ↔ is_Some (location p)
                 ∧ p ∈ filteredPeople people filteredYear) as Hmarked.
  { intros p. unfold rendered_markers, markers.
    rewrite (omap_imap_filter _ marker_person
               (λ p, bool_decide (is_Some (location p)))).
    - rewrite list_elem_of_In, filter_In, <-list_elem_of_In.
      rewrite bool_decide_eq_true. tauto.
    - intros i a. by destruct (location a). }
  split.
  - intros m Hm. unfold rendered_markers, markers in Hm.
    apply list_elem_of_omap in Hm as (om & Hom & Hid).
    unfold id in Hid. subst om.
    apply list_elem_of_lookup in Hom as [i Hi].
    rewrite list_lookup_imap in Hi.
    destruct (_ !! i) as [p|]; [|done]. simpl in Hi.
    destruct (location p) as [position|] eqn:Hloc; [|done].
    injection Hi as <-. unfold onClick. simpl. by rewrite Hloc.
  - intros p Hp. split.
    + unfold onClick. by destruct (location p).
    + rewrite Hmarked. unfold onClick.
      destruct (location p) as [position|].
      * split; [done|]. intros H. destruct H. split; [by eexists|done].
      * split; [|done]. intros _ [[? [=]] _].
Qed.

(** ** React keys *)

Lemma is_digit_pretty_N_char (x : N) : is_digit (pretty_N_char x) = true.
Proof. unfold pretty_N_char. by repeat case_match. Qed.

Lemma pretty_N_go_all_digits (x : N) (s : string) :
  all_digits s = true → all_digits (pretty_N_go x s) = true.
Proof.
  revert s. induction (N.lt_wf_0 x) as [x _ IH]. intros s Hs.
  destruct (decide (x = 0%N)) as [->|Hx]; [by rewrite pretty_N_go_0|].
  rewrite pretty_N_go_step by lia. apply IH; [apply N.div_lt; lia|].
  simpl. by rewrite is_digit_pretty_N_char.
Qed.

Lemma pretty_nat_all_digits (n : nat) : all_digits (pretty n) = true.
Proof.
  unfold pretty, pretty_nat, pretty, pretty_N.
  destruct (decide _); [done|]. by apply pretty_N_go_all_digits.
Qed.

(** [s] starts with a character that is not a digit. *)
Definition starts_without_digit (s : string) : bool :=
  match s with
  | String c _ => negb (is_digit c)
  | EmptyString => false
  end.

Lemma digits_prefix_unique (a b s t : string) :
  all_digits a = true → all_digits b = true →
  starts_without_digit s = true → starts_without_digit t = true →
  a +:+ s = b +:+ t → a = b.
Proof.
  assert (∀ u, "" +:+ u = u) as Hnil by done.
  assert (∀ e u v, String e u +:+ v = String e (u +:+ v)) as Hcons by done.
  revert b. induction a as [|c a IH]; intros [|d b] Ha Hb Hs Ht Heq;
    rewrite ?Hnil, ?Hcons in Heq; simpl in *.
  - done.
  - subst s. simpl in Hs. apply andb_prop in Hb as [Hd _].
    by rewrite Hd in Hs.
  - subst t. simpl in Ht. apply andb_prop in Ha as [Hc _].
    by rewrite Hc in Ht.
  - apply andb_prop in Ha as [_ Ha]. apply andb_prop in Hb as [_ Hb].
    injection Heq as -> Heq. f_equal. by apply (IH b).
Qed.

Lemma starts_without_digit_app (s t : string) :
  starts_without_digit s = true → starts_without_digit (s +:+ t) = true.
Proof. destruct s as [|c s]; [done|]. intros H. exact H. Qed.

(** X17: when no name starts with a digit (a name made by the extraction starts
    with the given name, or with a space when there is none), the keys of
    the list entries are pairwise different. *)
Theorem list_items_keys_NoDup (people : list PersonWithLocation)
    (filteredYear : string) :
  Forall (λ p, starts_without_digit (name (person p)) = true) people →
  NoDup (item_key <$> list_items people filteredYear).
Proof.
  intros Hnames.
  assert (Forall (λ p, starts_without_digit (name (person p)) = true)
            (filteredPeople people filteredYear)) as Hl.
  { unfold filteredPeople. case_bool_decide; [done|].
    rewrite Forall_forall in Hnames |- *. intros p Hp. apply Hnames.
    apply list_elem_of_In, filter_In in Hp as [Hp _].
    by apply list_elem_of_In. }
  unfold list_items. revert Hl.
  generalize (filteredPeople people filteredYear). intros l Hl.
  apply NoDup_alt. intros i j key Hi Hj.
  rewrite list_lookup_fmap, list_lookup_imap in Hi, Hj.
  destruct (l !! i) as [p|] eqn:Hp; [|done].
  destruct (l !! j) as [q|] eqn:Hq; [|done].
  simpl in Hi, Hj. injection Hi as Hi. injection Hj as Hj.
  rewrite <-Hj in Hi. unfold entry_key in Hi.
  rewrite Forall_lookup in Hl.
  apply digits_prefix_unique in Hi.
  - by apply (inj pretty) in Hi.
  - apply pretty_nat_all_digits.
  - apply pretty_nat_all_digits.
  - apply starts_without_digit_app, (Hl i p Hp).
  - apply starts_without_digit_app, (Hl j q Hq).
Qed.

End Map.

(** * The pipeline on concrete inputs *)

Module Sample.

Definition Date_parse := SampleHost.Date_parse.
Definition getFullYear := SampleHost.getFullYear.
Definition Math_random := SampleHost.Math_random.

Definition rows : list Row := [
  {[ "Bydliště" := "Kyjov 123"; "Datum prodeje" := "2021-05-01";
     "Jméno" := "Jan"; "Přijmení" := "Novák"; "Typ" := "TV" ]};
  {[ "Datum prodeje" := "2020-01-15"; "Jméno" := "Eva" ]};
  {[ "Bydliště" := "Brno"; "Datum prodeje" := "2019-11-30";
     "Jméno" := "Petr"; "Typ" := "Radio" ]};
  {[ "Bydliště" := "Nikde"; "Datum prodeje" := "neznámé";
     "Přijmení" := "Dvořák" ]}
].

Definition jan : Person :=
  {| city := "Kyjov "; year := Num 2021; name := "Jan Novák";
     device := Some "TV" |}.
Definition petr : Person :=
  {| city := "Brno"; year := Num 2019; name := "Petr ";
     device := Some "Radio" |}.
Definition dvorak : Person :=
  {| city := "Nikde"; year := NaN; name := " Dvořák"; device := None |}.

Definition st0 : State :=
  {| people := [ {| person := petr; location := None |} ];
     isLoading := false; totalPeople := 0; processedPeople := 0;
     filteredYear := "" |}.

(** [kyjovLocation], the centre of the map. *)
Definition kyjovLocation : LatLng :=
  {| lat := 49.01018%float; lng := 17.12253%float |}.

Definition kyjov : Feature :=
  {| coordinates := (17.12253, 49.01018)%float |}.
Definition brno : Feature :=
  {| coordinates := (16.60796, 49.19522)%float |}.

(** Every lookup is answered: Kyjov and Brno are found, the third city is
    not. *)
Definition answered (i : nat) : Response :=
  match i with
  | 0 => Data (Some [kyjov])
  | 1 => Data (Some [brno])
  | _ => Data (Some [])
  end.

(** The second lookup fails. *)
Definition failing (i : nat) : Response :=
  match i with
  | 1 => LookupFailure
  | _ => answered i
  end.

Definition eva : Person :=
  {| city := "Brno"; year := Num 2021; name := "Eva Malá";
     device := Some "TV" |}.

Definition p2023 : Person :=
  {| city := "Praha"; year := Num 2023; name := "Ivo "; device := None |}.

Lemma answered_Data (n i : nat) : i < n → answered i ≠ LookupFailure.
Proof. intros _. by destruct i as [|[|i]]. Qed.

Lemma all_arrived (i : nat) : i < 3 → i ∈ [2; 0; 1].
Proof.
  intros Hi. destruct i as [|[|[|i]]]; [set_solver..|lia].
Qed.

End Sample.

Import Sample.

Example sample_extract :
  foundPeople Date_parse getFullYear rows = Some [jan; petr; dvorak].
Proof. vm_compute. reflexivity. Qed.

(** C1, counterexample: a residence cell that holds digits only passes the
    filter and yields a record whose city is empty. *)
Lemma foundPeople_digits_only_city :
  foundPeople Date_parse getFullYear [ {[ "Bydliště" := "123" ]} ]
  = Some [ {| city := ""; year := NaN; name := " "; device := None |} ].
Proof. vm_compute. reflexivity. Qed.

(** C9 on the sample rows: the last row has a residence and the date
    "neznámé". *)
Lemma foundPeople_unparsable_date_witness :
  ∃ found1 found2 p,
    foundPeople Date_parse getFullYear (take 3 rows) = Some found1 ∧
    foundPeople Date_parse getFullYear [] = Some found2 ∧
    foundPeople Date_parse getFullYear
      (take 3 rows
       ++ {[ "Bydliště" := "Nikde"; "Datum prodeje" := "neznámé";
             "Přijmení" := "Dvořák" ]} :: [])
    = Some (found1 ++ p :: found2) ∧
    year p = NaN ∧ city p = strip_digits "Nikde".
Proof.
  apply (foundPeople_unparsable_date Date_parse getFullYear).
  - vm_compute. reflexivity.
  - discriminate.
  - vm_compute. reflexivity.
Defined.

(** C8 at the coordinates of Kyjov, with the draws 3/8 and 4/8. *)
Lemma addRandomOffset_within_witness :
  (Number_isFinite (lat (addRandomOffset Math_random kyjovLocation 3).1)
   = true
   ∧ (Qabs (value (lat (addRandomOffset Math_random kyjovLocation 3).1)
            - value (lat kyjovLocation))
      <= 0.0025 + 2 ^ (-45))%Q)
  ∧ (Number_isFinite (lng (addRandomOffset Math_random kyjovLocation 3).1)
     = true
     ∧ (Qabs (value (lng (addRandomOffset Math_random kyjovLocation 3).1)
              - value (lng kyjovLocation))
        <= 0.0025 + 2 ^ (-45))%Q).
Proof.
  apply (addRandomOffset_within Math_random kyjovLocation 3);
    vm_compute; reflexivity.
Defined.

(** The bound 0.0025 of C8 does not hold on doubles.  At Kyjov, with the
    draws 7/8 for the latitude and 0 for the longitude, the offset of the
    longitude is the double -0.0025 and the sum 17.12253 + -0.0025 is
    rounded down: the output is 703687441777 units of [2 ^ (-48)] away
    from the input, and 0.0025 is 703687441776.64 such units. *)
Lemma addRandomOffset_beyond :
  (abs (lat kyjovLocation) <=? 180)%float = true
  ∧ (abs (lng kyjovLocation) <=? 180)%float = true
  ∧ (0 <=? Math_random 7)%float = true
  ∧ (Math_random 7 <? 1)%float = true
  ∧ (0 <=? Math_random 8)%float = true
  ∧ (Math_random 8 <? 1)%float = true
  ∧ (value (lng kyjovLocation)
     - value (lng (addRandomOffset Math_random kyjovLocation 7).1)
     == 703687441777 # 2 ^ 48)%Q
  ∧ (0.0025 < Qabs (value (lng (addRandomOffset Math_random kyjovLocation
                                  7).1)
                    - value (lng kyjovLocation)))%Q.
Proof. split_and!; vm_compute; reflexivity. Qed.

(** C2 at three answered lookups: the total is 3 and the counter ends
    at 6. *)
Lemma resolveAll_processed_twice_witness :
  totalPeople (ui (resolveAll Math_random [jan; petr; dvorak] answered
                     [2; 0; 1] st0 0)) = 3
  ∧ processedPeople (ui (resolveAll Math_random [jan; petr; dvorak] answered
                           [2; 0; 1] st0 0)) = 6.
Proof.
  apply (resolveAll_processed_twice Math_random [jan; petr; dvorak] answered
           st0 [2; 0; 1] 0).
  - apply answered_Data.
  - apply all_arrived.
Defined.

(** C3 on a run whose second lookup fails. *)
Lemma resolveAll_failure_witness :
  people (ui (resolveAll Math_random [jan; petr; dvorak] failing [2; 0; 1]
                st0 0)) = people st0
  ∧ (∀ assignedPeople,
       awaited (resolveAll Math_random [jan; petr; dvorak] failing [2; 0; 1]
                  st0 0) ≠ Fulfilled assignedPeople)
  ∧ (1 ∈ [2; 0; 1] →
     awaited (resolveAll Math_random [jan; petr; dvorak] failing [2; 0; 1]
                st0 0) = Rejected
     ∧ isLoading (ui (resolveAll Math_random [jan; petr; dvorak] failing
                        [2; 0; 1] st0 0)) = false).
Proof.
  apply (resolveAll_failure Math_random [jan; petr; dvorak] failing st0
           [2; 0; 1] 0 1).
  - simpl. lia.
  - reflexivity.
Defined.

(** C10 on the sample records. *)
Lemma resolveAll_keeps_records_witness :
  ∃ assignedPeople,
    awaited (resolveAll Math_random [jan; petr; dvorak] answered [2; 0; 1]
               st0 0) = Fulfilled assignedPeople ∧
    person <$> assignedPeople = [jan; petr; dvorak] ∧
    List.filter not_null assignedPeople = assignedPeople ∧
    people (ui (resolveAll Math_random [jan; petr; dvorak] answered
                  [2; 0; 1] st0 0))
      = Array_sort by_year assignedPeople ∧
    length (people (ui (resolveAll Math_random [jan; petr; dvorak] answered
                          [2; 0; 1] st0 0)))
      = length [jan; petr; dvorak] ∧
    person <$> people (ui (resolveAll Math_random [jan; petr; dvorak]
                             answered [2; 0; 1] st0 0))
      = Array_sort (by_key year) [jan; petr; dvorak] ∧
    person <$> people (ui (resolveAll Math_random [jan; petr; dvorak]
                             answered [2; 0; 1] st0 0))
      ≡ₚ [jan; petr; dvorak].
Proof.
  apply (resolveAll_keeps_records Math_random [jan; petr; dvorak] answered
           st0 [2; 0; 1] 0).
  - apply answered_Data.
  - apply all_arrived.
Defined.

(** C4, counterexample: with a [NaN] year between 2023 and 2021 every
    comparison the sort makes involves [NaN] and counts as a tie, and the
    records stay as they were, 2023 before 2021. *)
Lemma resolveAll_NaN_year_not_sorted :
  (λ a, year (person a))
    <$> people (ui (resolveAll Math_random [p2023; dvorak; jan] answered
                      [0; 1; 2] st0 0))
  = [Num 2023; NaN; Num 2021].
Proof. vm_compute. reflexivity. Qed.

(** C4 on three records with valid years, two of them of 2021. *)
Lemma resolveAll_sorted_stable_witness :
  StronglySorted (key_le (λ a, year (person a)))
    (people (ui (resolveAll Math_random [jan; petr; eva] answered [2; 0; 1]
                   st0 0)))
  ∧ ∀ n,
      person <$> List.filter (λ a, bool_decide (year (person a) = n))
        (people (ui (resolveAll Math_random [jan; petr; eva] answered
                       [2; 0; 1] st0 0)))
      = List.filter (λ p, bool_decide (year p = n)) [jan; petr; eva].
Proof.
  apply (resolveAll_sorted_stable Math_random [jan; petr; eva] answered st0
           [2; 0; 1] 0).
  - apply answered_Data.
  - apply all_arrived.
  - repeat constructor; discriminate.
Defined.

Example sample_sorted :
  person <$> people (ui (resolveAll Math_random [jan; petr; eva] answered
                           [2; 0; 1] st0 0))
  = [petr; jan; eva].
Proof. vm_compute. reflexivity. Qed.

(** * Further properties on concrete inputs *)

Definition with_location (p : Person) : PersonWithLocation :=
  {| person := p;
     location := Some kyjovLocation |}.

Definition without_location (p : Person) : PersonWithLocation :=
  {| person := p; location := None |}.

(** One record per year from 2000 to 2020: 21 distinct years. *)
Definition people21 : list PersonWithLocation :=
  (λ z, without_location
          {| city := "Brno"; year := Num z; name := "Eva Malá";
             device := None |}) <$> seqZ 2000 21.

Lemma Math_random_unit (n : nat) :
  (0 <=? Math_random n)%float = true ∧ (Math_random n <? 1)%float = true.
Proof.
  unfold Math_random, SampleHost.Math_random.
  pose proof (Nat.mod_upper_bound n 8 ltac:(lia)) as Hlt.
  destruct (n mod 8) as [|[|[|[|[|[|[|[|i]]]]]]]];
    [split; vm_compute; reflexivity..|lia].
Qed.

Lemma answered_geographic (i : nat) (f : Feature) :
  first_feature (answered i) = Some f →
  (abs (coordinates f).1 <=? 180)%float = true
  ∧ (abs (coordinates f).2 <=? 180)%float = true.
Proof.
  destruct i as [|[|i]]; simpl; [intros [= <-]..|done];
    split; vm_compute; reflexivity.
Qed.

Lemma processFile_no_city_witness :
  ∃ run,
    processFile Date_parse getFullYear Math_random
      [ {[ "Jméno" := "Eva" ]}; {[ "Bydliště" := "" ]} ] answered [0; 1]
      st0 0 = Some run ∧
    people (ui run) = [] ∧ isLoading (ui run) = false ∧
    totalPeople (ui run) = 0 ∧
    lookups run = [] ∧ random_calls run = 0.
Proof.
  apply (processFile_no_city Date_parse getFullYear Math_random).
  repeat constructor.
Defined.

Lemma resolveAll_locations_witness :
  ∃ assignedPeople,
    people (ui (resolveAll Math_random [jan; petr; dvorak] answered
                  [2; 0; 1] st0 0))
      ≡ₚ assignedPeople ∧
    length assignedPeople = length [jan; petr; dvorak] ∧
    ∀ i v, assignedPeople !! i = Some v →
      [jan; petr; dvorak] !! i = Some (person v) ∧
      match first_feature (answered i) with
      | Some f =>
          ∃ loc, location v = Some loc ∧
            (Number_isFinite (lat loc) = true
             ∧ (Qabs (value (lat loc) - value (coordinates f).2)
                <= 0.0025 + 2 ^ (-45))%Q) ∧
            (Number_isFinite (lng loc) = true
             ∧ (Qabs (value (lng loc) - value (coordinates f).1)
                <= 0.0025 + 2 ^ (-45))%Q)
      | None => location v = None
      end.
Proof.
  apply (resolveAll_locations Math_random [jan; petr; dvorak] answered
           [2; 0; 1] st0 0).
  - apply Math_random_unit.
  - apply answered_geographic.
  - apply answered_Data.
  - apply all_arrived.
Defined.

Lemma resolveAll_arrival_order_witness :
  (λ a, (person a, bool_decide (is_Some (location a))))
    <$> people (ui (resolveAll Math_random [jan; petr; dvorak] answered
                      [2; 0; 1] st0 0))
  = (λ a, (person a, bool_decide (is_Some (location a))))
    <$> people (ui (resolveAll Math_random [jan; petr; dvorak] answered
                      [1; 2; 1; 0] st0 5)).
Proof.
  apply (resolveAll_arrival_order Math_random [jan; petr; dvorak] answered
           [2; 0; 1] [1; 2; 1; 0] st0 st0 0 5).
  - apply answered_Data.
  - apply all_arrived.
  - intros i Hi. destruct i as [|[|[|i]]]; [set_solver..|simpl in Hi; lia].
Defined.

Lemma colorMap_collision_witness :
  ∃ p q, p ∈ people21 ∧ q ∈ people21 ∧
    year (person p) ≠ year (person q) ∧
    color_of people21 p = color_of people21 q.
Proof.
  apply (colorMap_collision people21). vm_compute. lia.
Defined.

Lemma colorMap_chronological_witness :
  color_of [without_location petr; with_location jan; with_location eva]
    (with_location eva)
  = tailwindColorNames
      !! (length (filter (λ y, number_lt y (year (person (with_location eva))))
                    (remove_dups
                       (years [without_location petr; with_location jan;
                               with_location eva]))) mod 20).
Proof.
  apply (colorMap_chronological
           [without_location petr; with_location jan; with_location eva]).
  - repeat constructor; discriminate.
  - repeat constructor; unfold key_le; simpl; lia.
  - set_solver.
Defined.

Example sample_colours :
  color_of [without_location petr; with_location jan; with_location eva]
    <$> [without_location petr; with_location jan; with_location eva]
  = [Some "border-gray-500"; Some "border-red-500"; Some "border-red-500"].
Proof. vm_compute. reflexivity. Qed.

Lemma filteredPeople_year_option_witness :
  filteredPeople SampleHost.Number
    [without_location petr; with_location jan; with_location eva]
    (Number_toString (Num 2021))
  = filter (λ p, year (person p) = Num 2021)
      [without_location petr; with_location jan; with_location eva]
  ∧ (Num 2021 ∈ years [without_location petr; with_location jan;
                       with_location eva] →
     filteredPeople SampleHost.Number
       [without_location petr; with_location jan; with_location eva]
       (Number_toString (Num 2021)) ≠ []).
Proof.
  apply (filteredPeople_year_option SampleHost.Number
           [without_location petr; with_location jan; with_location eva]
           2021).
  vm_compute. reflexivity.
Defined.

Lemma filteredPeople_NaN_option_witness :
  ("NaN" ∈ dom (colorMap [with_location jan; without_location dvorak])
   ↔ NaN ∈ years [with_location jan; without_location dvorak])
  ∧ filteredPeople SampleHost.Number
      [with_location jan; without_location dvorak] "NaN" = [].
Proof.
  apply (filteredPeople_NaN_option SampleHost.Number
           [with_location jan; without_location dvorak]).
  vm_compute. reflexivity.
Defined.

Lemma list_items_keys_NoDup_witness :
  NoDup (item_key
           <$> list_items SampleHost.Number
                 [without_location petr; with_location jan;
                  with_location eva] "2021").
Proof.
  apply (list_items_keys_NoDup SampleHost.Number
           [without_location petr; with_location jan; with_location eva]
           "2021").
  repeat constructor.
Defined.

(** Two entries whose keys coincide: index 1 with a name that starts with
    "0", and index 10. *)
Example entry_key_collision :
  entry_key 1 (without_location
                 {| city := "Brno"; year := Num 2021; name := "0 Malá";
                    device := None |})
  = entry_key 10 (without_location
                    {| city := "Brno"; year := Num 2021; name := " Malá";
                       device := None |}).
Proof. vm_compute. reflexivity. Qed.

Example sample_markers :
  marker_key
    <$> rendered_markers SampleHost.Number
          [without_location petr; with_location jan; with_location eva] ""
  = ["1Jan Novák2021"; "2Eva Malá2021"].
Proof. vm_compute. reflexivity. Qed.
